(** * Blockly build tasks: chunk graph, wrappers, path flattening, licence stripping

    A shallow embedding of the algorithmic core of
    [scripts/gulpfiles/build_tasks.js]:

    - [stripApacheLicense]: the global regular-expression replacement that
      removes the Apache licence headers;
    - [flattenCorePaths] / [unflattenCorePaths]: the path rewrite applied
      around the Closure Compiler run;
    - [chunkWrapper] and [getChunkOptions]: the UMD wrapper template and the
      translation of the output of closure-calculate-chunks.

    JavaScript strings are modelled as lists of 8-bit characters, the
    module-level array [chunks] (whose objects [getChunkOptions] updates in
    place) as an explicit store, and a thrown exception as the [Throw]
    outcome of a computation that still returns the store it had modified
    so far.  The text of the external tools (closure-calculate-chunks, the
    cache file) enters as the argument [rawOptions]. *)

From Stdlib Require Import Ascii String.
From stdpp Require Import base list gmap strings.

Local Open Scope char_scope.
Local Open Scope list_scope.

(* ===================================================================== *)
(** * JavaScript strings *)
(* ===================================================================== *)

(** A JavaScript string, as the sequence of its characters. *)
Abbreviation str := (list ascii).

(** A string literal of the source. *)
Definition lit (s : string) : str := list_ascii_of_string s.

(** The line feed, written [\n] in the source. *)
Definition LF : ascii := "010".
Definition CR : ascii := "013".

(** [s.startsWith(p)]. *)
Fixpoint startsWith (p s : str) : bool :=
  match p, s with
  | [], _ => true
  | _ :: _, [] => false
  | a :: p', b :: s' => Ascii.eqb a b && startsWith p' s'
  end.

(** [s.endsWith(p)]. *)
Definition endsWith (p s : str) : bool := startsWith (rev p) (rev s).

(** [s.includes(p)]: [p] occurs in [s] as a substring. *)
Fixpoint includes (p s : str) : bool :=
  startsWith p s ||
  match s with
  | [] => false
  | _ :: s' => includes p s'
  end.

(** Equality of two strings, [a === b]. *)
Fixpoint str_eqb (a b : str) : bool :=
  match a, b with
  | [], [] => true
  | x :: a', y :: b' => Ascii.eqb x y && str_eqb a' b'
  | _, _ => false
  end.

(** [s.split(sep)] for a one-character separator: never the empty array. *)
Fixpoint split (sep : ascii) (s : str) : list str :=
  match s with
  | [] => [[]]
  | c :: s' =>
      if Ascii.eqb c sep then [] :: split sep s'
      else match split sep s' with
           | h :: t => (c :: h) :: t
           | [] => [[c]]
           end
  end.

(** [l.join(sep)]. *)
Fixpoint join (sep : str) (l : list str) : str :=
  match l with
  | [] => []
  | x :: l' =>
      match l' with
      | [] => x
      | _ :: _ => x ++ sep ++ join sep l'
      end
  end.

(* ===================================================================== *)
(** * Regular expressions *)
(* ===================================================================== *)

(** The atoms that consume one character. *)
Inductive cset :=
| CChar (c : ascii)   (** a literal character *)
| CDot                (** [.]: anything but a line terminator *)
| CDigit.             (** [\d] *)

Definition inSet (cs : cset) (c : ascii) : bool :=
  match cs with
  | CChar a => Ascii.eqb a c
  | CDot => negb (Ascii.eqb c LF || Ascii.eqb c CR)
  | CDigit => (48 <=? nat_of_ascii c)%nat && (nat_of_ascii c <=? 57)%nat
  end.

(** The fragment of the regular-expression syntax the source uses. *)
Inductive regex :=
| Eps
| One (cs : cset)
| Seq (r1 r2 : regex)
| Alt (r1 r2 : regex)    (** [r1|r2], the left branch first *)
| Opt (r : regex)        (** [(r)?], greedy *)
| Plus (cs : cset).      (** [a+] on a one-character atom, greedy *)

(** The regular expression of a literal text. *)
Fixpoint Lit (s : str) : regex :=
  match s with
  | [] => Eps
  | c :: s' => Seq (One (CChar c)) (Lit s')
  end.

(** Greedy repetition with backtracking: take as many as possible, and give
    characters back one at a time while the continuation fails. *)
Fixpoint greedy (cs : cset) (s : str) (k : str -> option str) : option str :=
  match s with
  | [] => k []
  | c :: s' =>
      if inSet cs c then
        match greedy cs s' k with
        | Some r => Some r
        | None => k s
        end
      else k s
  end.

(** The backtracking matcher, anchored at the head of [s]; the continuation
    [k] matches what follows and answers the text left after the match. *)
Fixpoint matchRe (r : regex) (s : str) (k : str -> option str) : option str :=
  match r with
  | Eps => k s
  | One cs =>
      match s with
      | c :: s' => if inSet cs c then k s' else None
      | [] => None
      end
  | Seq r1 r2 => matchRe r1 s (fun s' => matchRe r2 s' k)
  | Alt r1 r2 =>
      match matchRe r1 s k with
      | Some x => Some x
      | None => matchRe r2 s k
      end
  | Opt r1 =>
      match matchRe r1 s k with
      | Some x => Some x
      | None => k s
      end
  | Plus cs =>
      match s with
      | c :: s' => if inSet cs c then greedy cs s' k else None
      | [] => None
      end
  end.

(** One match attempt at the head of [s]: the text after the match. *)
Definition exec (r : regex) (s : str) : option str := matchRe r s Some.

(** The texts a regular expression denotes. *)
Fixpoint lang (r : regex) (m : str) : Prop :=
  match r with
  | Eps => m = []
  | One cs => exists c, m = [c] /\ inSet cs c = true
  | Seq r1 r2 => exists m1 m2, m = m1 ++ m2 /\ lang r1 m1 /\ lang r2 m2
  | Alt r1 r2 => lang r1 m \/ lang r2 m
  | Opt r1 => m = [] \/ lang r1 m
  | Plus cs => m <> [] /\ Forall (fun c => inSet cs c = true) m
  end.

(** [s.replace(new RegExp(r, "g"), rep)] for a replacement text without
    [$]-patterns: scan from the left, replace each match and resume after
    it.  [skip] counts the characters of the current match still to pass. *)
Fixpoint replaceFrom (r : regex) (rep : str) (skip : nat) (s : str) : str :=
  match s with
  | [] =>
      match skip, exec r [] with
      | O, Some _ => rep
      | _, _ => []
      end
  | c :: s' =>
      match skip with
      | S n => replaceFrom r rep n s'
      | O =>
          match exec r s with
          | Some rest =>
              match length s - length rest with
              | O => rep ++ c :: replaceFrom r rep 0 s'
              | S n => rep ++ replaceFrom r rep n s'
              end
          | None => c :: replaceFrom r rep 0 s'
          end
      end
  end.

Definition replaceAll (r : regex) (rep : str) (s : str) : str :=
  replaceFrom r rep 0 s.

(* ===================================================================== *)
(** * Path flattening *)
(* ===================================================================== *)

(** [path.sep] depends on the platform node runs on. *)
Inductive platform := posix | win32.

Definition path_sep (pf : platform) : ascii :=
  match pf with
  | posix => "/"
  | win32 => "\"
  end.

(** The path object gulp.rename hands to its callback. *)
Record pathObject := PathObject {
  dirname : str;
  basename : str;
  extname : str
}.

(** The reserved directory and the token that stands for a separator. *)
Definition CORE : str := lit "core".
Definition SLASH_TOKEN : str := lit "-slash-".

(** [flattenCorePaths]: the object is modified in place; the model returns
    the object after the call. *)
Definition flattenCorePaths (pf : platform) (p : pathObject) : pathObject :=
  let dirs := split (path_sep pf) (dirname p) in
  match dirs with
  | d0 :: rest =>
      if str_eqb d0 CORE then
        {| dirname := d0;
           basename := join SLASH_TOKEN (rest ++ [basename p]);
           extname := extname p |}
      else p
  | [] => p
  end.

(** [unflattenCorePaths]. *)
Definition unflattenCorePaths (pf : platform) (pathString : str) : str :=
  replaceAll (Lit SLASH_TOKEN) [path_sep pf] pathString.

(** The path string gulp.rename builds from the object after the callback,
    [path.join(dirname, basename + extname)], for a directory that is
    already normalised and not empty. *)
Definition pathString (pf : platform) (p : pathObject) : str :=
  dirname p ++ [path_sep pf] ++ basename p ++ extname p.

(** A path segment in which no match of the token can begin: it neither
    contains the token nor ends with the token less its last character. *)
Definition cleanSegment (seg : str) : bool :=
  negb (includes SLASH_TOKEN seg) && negb (endsWith (lit "-slash") seg).

(* ===================================================================== *)
(** * Licence stripping *)
(* ===================================================================== *)

(** A sequence of regular expressions. *)
Fixpoint Cat (rs : list regex) : regex :=
  match rs with
  | [] => Eps
  | r :: rs' => Seq r (Cat rs')
  end.

Definition Text (s : string) : regex := Lit (lit s).
Definition NL : regex := One (CChar LF).

(** The optional line of the header, up to its wildcard. *)
Definition ALL_RIGHTS_RESERVED : str := lit " * All rights reserved".

(** [licenseRegex], line by line as the template literal spells it.  The two
    unescaped dots (after "reserved" and inside "2.0") are the wildcard. *)
Definition licenseRegex : regex :=
  Cat [ Text "/**"; NL;
        Text " * @license"; NL;
        Text " * ";
        Cat [ Text "Copyright "; Plus CDigit; Text " ";
              Alt (Text "Google LLC")
                  (Text "Massachusetts Institute of Technology") ];
        NL;
        Opt (Cat [ Lit ALL_RIGHTS_RESERVED; One CDot; NL ]);
        Text " * SPDX-License-Identifier: Apache-2"; One CDot; Text "0"; NL;
        Text " */" ].

(** [stripApacheLicense]: the replacement gulp.replace applies to the text of
    every file. *)
Definition stripApacheLicense (text : str) : str :=
  replaceAll licenseRegex [LF; LF; LF; LF] text.

(** The number of line feeds in a text, and its number of lines,
    [text.split('\n').length]. *)
Fixpoint lineFeeds (text : str) : nat :=
  match text with
  | [] => 0
  | c :: text' => (if Ascii.eqb c LF then 1 else 0) + lineFeeds text'
  end.

Definition lineCount (text : str) : nat := S (lineFeeds text).

(** Lines of text joined by line feeds. *)
Definition lines (l : list str) : str := join [LF] l.

(* ===================================================================== *)
(** * Chunks and their wrappers *)
(* ===================================================================== *)

Definition COMPILED_SUFFIX : str := lit "_compressed".
Definition NAMESPACE_OBJECT : str := lit "$".

(** A chunk object.  [dependencies] and [wrapper] are the two properties
    [getChunkOptions] adds ([None] while absent); a dependency is a
    reference to a chunk object, modelled by its position in the array
    [chunks], or [undefined] ([None]). *)
Record chunk := Chunk {
  name : str;
  entry : str;
  exports : str;
  importAs : option str;
  factoryPreamble : option str;
  factoryPostamble : option str;
  dependencies : option (list (option nat));
  wrapper : option str
}.

Definition set_dependencies (c : chunk) (ds : list (option nat)) : chunk :=
  {| name := name c; entry := entry c; exports := exports c;
     importAs := importAs c; factoryPreamble := factoryPreamble c;
     factoryPostamble := factoryPostamble c;
     dependencies := Some ds; wrapper := wrapper c |}.

Definition set_wrapper (c : chunk) (w : str) : chunk :=
  {| name := name c; entry := entry c; exports := exports c;
     importAs := importAs c; factoryPreamble := factoryPreamble c;
     factoryPostamble := factoryPostamble c;
     dependencies := dependencies c; wrapper := Some w |}.

(** A chunk as the array literal declares it. *)
Definition declare (n e x : string) (i p q : option str) : chunk :=
  {| name := lit n; entry := lit e; exports := lit x; importAs := i;
     factoryPreamble := p; factoryPostamble := q;
     dependencies := None; wrapper := None |}.

(** The array [chunks] as declared. *)
Definition chunks : list chunk :=
  [ declare "blockly" "core/requires.js" "Blockly" (Some (lit "Blockly"))
      (Some (lit "const " ++ NAMESPACE_OBJECT ++ lit "={};"))
      (Some (NAMESPACE_OBJECT ++ lit ".Blockly.internal_=" ++
             NAMESPACE_OBJECT ++ lit ";"));
    declare "blocks" "blocks/all.js" "Blockly.Blocks"
      (Some (lit "BlocklyBlocks")) None None;
    declare "javascript" "generators/javascript/all.js" "Blockly.JavaScript"
      None None None;
    declare "python" "generators/python/all.js" "Blockly.Python"
      None None None;
    declare "php" "generators/php/all.js" "Blockly.PHP" None None None;
    declare "lua" "generators/lua/all.js" "Blockly.Lua" None None None;
    declare "dart" "generators/dart/all.js" "Blockly.Dart" None None None ].

Definition FACTORY_PREAMBLE : str :=
  lit "const " ++ NAMESPACE_OBJECT ++ lit "=Blockly.internal_;".

Definition FACTORY_POSTAMBLE : str := [].

(** [a || b] on optional strings: [undefined] and the empty string are
    falsy. *)
Definition orElse (a : option str) (b : str) : str :=
  match a with
  | Some (c :: s) => c :: s
  | Some [] | None => b
  end.

(** A value interpolated into a template literal. *)
Definition show (a : option str) : str :=
  match a with
  | Some s => s
  | None => lit "undefined"
  end.

(** An element of an array as [join] prints it. *)
Definition joined (a : option str) : str :=
  match a with
  | Some s => s
  | None => []
  end.

Definition DQUOTE : ascii := "034".
Definition BACKSLASH : ascii := "092".

Definition hexDigit (n : nat) : ascii :=
  nth n (list_ascii_of_string "0123456789abcdef") "0".

(** [JSON.stringify] of a string. *)
Definition quoteChar (c : ascii) : str :=
  let n := nat_of_ascii c in
  if Ascii.eqb c DQUOTE then [BACKSLASH; DQUOTE]
  else if Ascii.eqb c BACKSLASH then [BACKSLASH; BACKSLASH]
  else if (n =? 8)%nat then [BACKSLASH; "b"]
  else if (n =? 9)%nat then [BACKSLASH; "t"]
  else if (n =? 10)%nat then [BACKSLASH; "n"]
  else if (n =? 12)%nat then [BACKSLASH; "f"]
  else if (n =? 13)%nat then [BACKSLASH; "r"]
  else if (n <? 32)%nat then
    [BACKSLASH; "u"; "0"; "0"; hexDigit (n / 16); hexDigit (n mod 16)]
  else [c].

Definition JSON_stringify (s : str) : str :=
  [DQUOTE] ++ concat (map quoteChar s) ++ [DQUOTE].

(** The text of the wrapper, given the chunk objects its dependencies refer
    to.  [wrapperHeader] is the template up to the line that opens the
    factory function; [wrapperText] is the whole template. *)
Definition wrapperHeader (deps : list chunk) (c : chunk) : str :=
  let fileNames :=
    map (fun d => JSON_stringify
                    (lit "./" ++ name d ++ COMPILED_SUFFIX ++ lit ".js")) deps in
  let amdDeps := join (lit ", ") fileNames in
  let cjsDeps :=
    join (lit ", ") (map (fun f => lit "require(" ++ f ++ lit ")") fileNames) in
  let browserDeps :=
    join (lit ", ") (map (fun d => lit "root." ++ exports d) deps) in
  let imports := join (lit ", ") (map (fun d => joined (importAs d)) deps) in
  lit "// Do not edit this file; automatically generated." ++ [LF] ++
  [LF] ++
  lit "/* eslint-disable */" ++ [LF] ++
  lit ";(function(root, factory) {" ++ [LF] ++
  lit "  if (typeof define === 'function' && define.amd) { // AMD" ++ [LF] ++
  lit "    define([" ++ amdDeps ++ lit "], factory);" ++ [LF] ++
  lit "  } else if (typeof exports === 'object') { // Node.js" ++ [LF] ++
  lit "    module.exports = factory(" ++ cjsDeps ++ lit ");" ++ [LF] ++
  lit "  } else { // Browser" ++ [LF] ++
  lit "    root." ++ exports c ++ lit " = factory(" ++ browserDeps ++
    lit ");" ++ [LF] ++
  lit "  }" ++ [LF] ++
  lit "}(this, function(" ++ imports ++ lit ") {" ++ [LF].

Definition wrapperText (deps : list chunk) (c : chunk) : str :=
  wrapperHeader deps c ++
  orElse (factoryPreamble c) FACTORY_PREAMBLE ++ [LF] ++
  lit "%output%" ++ [LF] ++
  orElse (factoryPostamble c) FACTORY_POSTAMBLE ++ [LF] ++
  lit "return " ++ NAMESPACE_OBJECT ++ lit "." ++ exports c ++ lit ";" ++ [LF] ++
  lit "}));" ++ [LF].

(** The outcome of a computation that may throw. *)
Inductive jsError := TypeError.

Inductive result (A : Type) :=
| Ok (a : A)
| Throw (e : jsError).
Arguments Ok {A} a.
Arguments Throw {A} e.

(** The array [chunks] during a build. *)
Abbreviation store := (list chunk).

(** Following a dependency to its chunk object; [undefined] has none. *)
Definition deref (st : store) (d : option nat) : option chunk :=
  match d with
  | Some j => st !! j
  | None => None
  end.

(** [chunkWrapper]: reading [.map] of an absent [dependencies], or a
    property of an [undefined] dependency, throws. *)
Definition chunkWrapper (st : store) (c : chunk) : result str :=
  match dependencies c with
  | None => Throw TypeError
  | Some ds =>
      match mapM (deref st) ds with
      | None => Throw TypeError
      | Some deps => Ok (wrapperText deps c)
      end
  end.

(* ===================================================================== *)
(** * getChunkOptions *)
(* ===================================================================== *)

(** The options closure-calculate-chunks prints (or the cache file holds). *)
Record rawOptions := RawOptions {
  raw_chunk : list str;
  raw_js : list str
}.

(** The options handed to the Closure Compiler. *)
Record chunkOptions := ChunkOptions {
  chunk_ : list str;
  js : list str;
  chunk_wrapper : list str
}.

(** [chunkByNickname], an object without prototype used as a dictionary. *)
Abbreviation nicknames := (gmap str nat).

(** The callback of [rawOptions.chunk.map]: its string, the dictionary
    after the call and the array [chunks] after the call.  When it throws
    the dictionary is lost with the activation of [getChunkOptions]; the
    updates made to the chunk objects remain.  A position without a chunk
    gives [undefined], and the assignment to its [dependencies] throws. *)
Definition mapCallback (chunkByNickname : nicknames) (st : store)
    (element : str) (index : nat) : result (str * nicknames) * store :=
  let parts := split ":" element in
  let nickname := default [] (parts !! 0) in
  let numJsFiles := parts !! 1 in
  let dependencyNicks := parts !! 2 in
  match st !! index with
  | None => (Throw TypeError, st)
  | Some chunk =>
      let chunkByNickname := <[nickname := index]> chunkByNickname in
      match dependencyNicks with
      | None | Some [] =>
          (Ok (name chunk ++ lit ":" ++ show numJsFiles, chunkByNickname),
           <[index := set_dependencies chunk []]> st)
      | Some dependencyNicks =>
          let deps :=
            map (fun nick => chunkByNickname !! nick)
                (split "," dependencyNicks) in
          let st := <[index := set_dependencies chunk deps]> st in
          match mapM (deref st) deps with
          | None => (Throw TypeError, st)
          | Some ds =>
              (Ok (name chunk ++ lit ":" ++ show numJsFiles ++ lit ":" ++
                   join (lit ",") (map name ds), chunkByNickname), st)
          end
      end
  end.

(** [rawOptions.chunk.map(callback)], from position [index] on. *)
Fixpoint mapChunks (chunkByNickname : nicknames) (st : store) (index : nat)
    (elements : list str) : result (list str) * store :=
  match elements with
  | [] => (Ok [], st)
  | element :: rest =>
      match mapCallback chunkByNickname st element index with
      | (Throw e, st) => (Throw e, st)
      | (Ok (s, chunkByNickname), st) =>
          match mapChunks chunkByNickname st (S index) rest with
          | (Throw e, st) => (Throw e, st)
          | (Ok l, st) => (Ok (s :: l), st)
          end
      end
  end.

(** [for (const chunk of chunks) chunk.wrapper = chunkWrapper(chunk)], over
    the positions [indices]. *)
Fixpoint wrapEach (indices : list nat) (st : store) : result unit * store :=
  match indices with
  | [] => (Ok tt, st)
  | i :: rest =>
      match st !! i with
      | None => (Ok tt, st)
      | Some chunk =>
          match chunkWrapper st chunk with
          | Throw e => (Throw e, st)
          | Ok w => wrapEach rest (<[i := set_wrapper chunk w]> st)
          end
      end
  end.

(** [getChunkOptions], from the point where [rawOptions] has been read; the
    second component is the array [chunks] it leaves behind. *)
Definition getChunkOptions (st : store) (rawOptions : rawOptions)
  : result chunkOptions * store :=
  match mapChunks ∅ st 0 (raw_chunk rawOptions) with
  | (Throw e, st) => (Throw e, st)
  | (Ok chunkList, st) =>
      match wrapEach (seq 0 (length st)) st with
      | (Throw e, st) => (Throw e, st)
      | (Ok _, st) =>
          let chunkWrappers :=
            map (fun chunk => name chunk ++ lit ":" ++ show (wrapper chunk))
                st in
          (Ok {| chunk_ := chunkList; js := raw_js rawOptions;
                 chunk_wrapper := chunkWrappers |}, st)
      end
  end.

(** The two parts of a descriptor [nickname:numJsFiles:dep,dep] the callback
    resolves: its nickname and the nicknames it depends on (none when the
    third part is absent or empty). *)
Definition nicknameOf (element : str) : str :=
  default [] (split ":" element !! 0).

Definition dependencyNicksOf (element : str) : list str :=
  match split ":" element !! 2 with
  | Some (c :: s) => split "," (c :: s)
  | Some [] | None => []
  end.

(** The fields of a chunk the array literal declares. *)
Definition declaredFields (c : chunk)
  : str * str * str * option str * option str * option str :=
  (name c, entry c, exports c, importAs c, factoryPreamble c,
   factoryPostamble c).

(* ===================================================================== *)
(** * getChunkOptions: where the raw options come from *)
(* ===================================================================== *)

(** [r.exec(s)] for a regular expression without flags: the leftmost match,
    as the matched text and the text after it. *)
Fixpoint search (r : regex) (s : str) : option (str * str) :=
  match exec r s with
  | Some rest => Some (take (length s - length rest) s, rest)
  | None =>
      match s with
      | [] => None
      | _ :: s' => search r s'
      end
  end.

(** The pattern [v(\d+)\.] applied to [process.version]. *)
Definition versionRegex : regex :=
  Cat [ One (CChar "v"); Plus CDigit; One (CChar ".") ].

(** [/v(\d+)\./.exec(process.version)[1]]: the group is the match without
    its first and last character; indexing [null] throws. *)
Definition nodeMajorVersion (version : str) : result str :=
  match search versionRegex version with
  | Some (matched, _) => Ok (removelast (tail matched))
  | None => Throw TypeError
  end.

(** The number a string of decimal digits is converted to by [>=]. *)
Definition toNumber (digits : str) : nat :=
  fold_left (fun n c => 10 * n + (nat_of_ascii c - 48)) digits 0.

(** [s.replace(pat, rep)] for a string [pat] and a replacement without
    [$]-patterns: the first occurrence only. *)
Fixpoint replaceFirst (pat rep : str) (s : str) : str :=
  if startsWith pat s then rep ++ drop (length pat) s
  else match s with
       | [] => []
       | c :: s' => c :: replaceFirst pat rep s'
       end.

(** What a run of [getChunkOptions] finds around it: the version of node,
    the working directory, the parsed output of closure-calculate-chunks
    and the parsed content of the cache file. *)
Record environment := Environment {
  version : str;
  cwd : str;
  toolOutput : rawOptions;
  cacheFile : rawOptions
}.

(** Where the raw options came from; a live run writes them to the cache
    file. *)
Inductive origin :=
| Live (written : rawOptions)
| Cached.

(** The first part of [getChunkOptions]: choosing and preparing
    [rawOptions]. *)
Definition readRawOptions (e : environment) : result (rawOptions * origin) :=
  match nodeMajorVersion (version e) with
  | Throw err => Throw err
  | Ok major =>
      if (14 <=? toNumber major)%nat then
        let rawOptions :=
          {| raw_chunk := raw_chunk (toolOutput e);
             raw_js := map (replaceFirst (cwd e) (lit "."))
                           (raw_js (toolOutput e)) |} in
        Ok (rawOptions, Live rawOptions)
      else Ok (cacheFile e, Cached)
  end.

(* ===================================================================== *)
(** * Options for the Closure Compiler *)
(* ===================================================================== *)

(** The values of the options: strings, booleans and arrays of strings. *)
Inductive optionValue :=
| VString (s : str)
| VBool (b : bool)
| VList (l : list str).

(** An options object. *)
Abbreviation optionsObject := (gmap str optionValue).

(** The command-line flags [compile] reads, by their truthiness. *)
Record argvFlags := ArgvFlags {
  verbose : bool;
  debug : bool;
  strict : bool
}.

Definition JSCOMP_ERROR : list str :=
  [ lit "accessControls"; lit "checkPrototypalTypes"; lit "checkRegExp";
    lit "checkTypes"; lit "checkVars"; lit "conformanceViolations";
    lit "const"; lit "constantProperty"; lit "deprecated";
    lit "deprecatedAnnotations"; lit "duplicateMessage"; lit "es5Strict";
    lit "externsValidation"; lit "extraRequire"; lit "functionParams";
    lit "globalThis"; lit "invalidCasts"; lit "misplacedTypeAnnotation";
    lit "missingPolyfill"; lit "missingProperties"; lit "missingProvide";
    lit "missingRequire"; lit "missingReturn"; lit "moduleLoad";
    lit "msgDescriptions"; lit "nonStandardJsDocs";
    lit "strictModuleDepCheck"; lit "suspiciousCode";
    lit "typeInvalidation"; lit "undefinedVars"; lit "underscore";
    lit "unknownDefines"; lit "unusedLocalVariables";
    lit "unusedPrivateMembers"; lit "uselessCode";
    lit "untranspilableFeatures"; lit "visibility" ].

(** [defaultOptions] of [compile], after the flags have been looked at. *)
Definition defaultOptions (argv : argvFlags) : optionsObject :=
  let defaultOptions : optionsObject :=
    list_to_map
      [ (lit "compilation_level", VString (lit "SIMPLE_OPTIMIZATIONS"));
        (lit "warning_level",
         VString (if verbose argv then lit "VERBOSE" else lit "DEFAULT"));
        (lit "language_in", VString (lit "ECMASCRIPT_2020"));
        (lit "language_out", VString (lit "ECMASCRIPT5_STRICT"));
        (lit "rewrite_polyfills", VBool true);
        (lit "hide_warnings_for", VString (lit "node_modules"));
        (lit "define", VList [lit "COMPILED=true"]);
        (lit "externs", VList [lit "./externs/svg-externs.js"]) ] in
  if debug argv || strict argv then
    <[lit "jscomp_error" :=
        VList (JSCOMP_ERROR ++
               if strict argv then [lit "strictCheckTypes"] else [])]>
      defaultOptions
  else defaultOptions.

(** [compile]: the two arguments it passes to the Closure Compiler plugin,
    the options [{...defaultOptions, ...options}] and the platforms. *)
Definition compile (argv : argvFlags) (options : optionsObject)
  : optionsObject * list str :=
  (options ∪ defaultOptions argv, [lit "native"; lit "java"; lit "javascript"]).

(** The options [buildCompiled] hands to [compile]. *)
Definition buildCompiledOptions (packageVersion : str)
    (chunkOptions : chunkOptions) : optionsObject :=
  list_to_map
    [ (lit "define",
       VString (lit "Blockly.VERSION=" ++ [DQUOTE] ++ packageVersion ++
                [DQUOTE]));
      (lit "chunk", VList (chunk_ chunkOptions));
      (lit "chunk_wrapper", VList (chunk_wrapper chunkOptions));
      (lit "rename_prefix_namespace", VString NAMESPACE_OBJECT) ].

(** The options [buildAdvancedCompilationTest] hands to [compile]. *)
Definition advancedCompilationOptions : optionsObject :=
  list_to_map
    [ (lit "dependency_mode", VString (lit "PRUNE"));
      (lit "compilation_level", VString (lit "ADVANCED_OPTIMIZATIONS"));
      (lit "entry_point", VString (lit "./tests/compile/main.js"));
      (lit "js_output_file", VString (lit "main_compressed.js")) ].

(* ===================================================================== *)
(** * buildLangfiles: the choice of the message files *)
(* ===================================================================== *)

(** [r.test(s)] for the regular expression [r$]: some match of [r] ends
    where the text ends. *)
Fixpoint testToEnd (r : regex) (s : str) : bool :=
  match matchRe r s (fun rest => match rest with
                                 | [] => Some []
                                 | _ :: _ => None
                                 end) with
  | Some _ => true
  | None =>
      match s with
      | [] => false
      | _ :: s' => testToEnd r s'
      end
  end.

(** The pattern [(keys|synonyms|qqq|constants)\.json], before its [$]. *)
Definition notLanguageRegex : regex :=
  Seq (Alt (Text "keys")
        (Alt (Text "synonyms") (Alt (Text "qqq") (Text "constants"))))
      (Text ".json").

(** The filter on the names read from msg/json. *)
Definition isLanguageFile (file : str) : bool :=
  endsWith (lit "json") file && negb (testToEnd notLanguageRegex file).

(** The array [json_files] after its [filter] and its [map]:
    [path.join('msg', 'json', file)] for each file name kept, where
    [listing] is what [readdirSync] returned (names of directory entries).
    [buildLangfiles] then joins the array with spaces into the text of a
    shell command; the command is not part of this definition. *)
Definition languageFiles (pf : platform) (listing : list str) : list str :=
  map (fun file => lit "msg" ++ [path_sep pf] ++ lit "json" ++
                   [path_sep pf] ++ file)
      (List.filter isLanguageFile listing).

(* ===================================================================== *)
(** * Predicates of the statements *)
(* ===================================================================== *)

(** What a step leaves alone: the declared fields of all chunks, and all of
    the chunks outside the positions [i, i + n). *)
Definition frame (i n : nat) (st st' : store) : Prop :=
  map declaredFields st' = map declaredFields st /\
  forall j, j < i \/ i + n <= j -> st' !! j = st !! j.

(** A dependency list made of references to chunks up to position [i]. *)
Definition refersUpTo (i : nat) (ds : list (option nat)) : Prop :=
  Forall (fun d => exists j, d = Some j /\ j <= i) ds.

(** Every chunk has a dependency list, made of references into the array. *)
Definition resolved (st : store) : Prop :=
  Forall (fun c => exists ds, dependencies c = Some ds /\
            Forall (fun d => exists j, d = Some j /\ j < length st) ds) st.

(** A chunk object with the declared fields of one of the array [chunks]. *)
Definition declaredChunk (d : chunk) : Prop :=
  declaredFields d ∈ map declaredFields chunks.

(** A text without braces. *)
Definition plain (s : str) : bool :=
  forallb (fun c => negb (Ascii.eqb c "{" || Ascii.eqb c "}")) s.

(** A scan for the character [b] directly after the character [a]: [None]
    once it is found, otherwise whether the text read so far ends with [a]
    ([prev] says so for the text before [s]). *)
Fixpoint follows (a b : ascii) (prev : bool) (s : str) : option bool :=
  match s with
  | [] => Some prev
  | c :: s' =>
      if prev && Ascii.eqb c b then None
      else follows a b (Ascii.eqb c a) s'
  end.

(** The descriptor [getChunkOptions] returns for [element]: the name of the
    chunk for the nickname, the same number of files, and the names of the
    chunks the dependency nicknames stand for. *)
Definition renamedDescriptor (c : chunk) (element : str) (names : list str)
  : str :=
  name c ++ lit ":" ++ show (split ":" element !! 1) ++
  match dependencyNicksOf element with
  | [] => []
  | _ :: _ => lit ":" ++ join (lit ",") names
  end.

(** The chunk a nickname stands for when the descriptor at position [i]
    is reached: position [j] is the last one before [i] whose descriptor
    has the nickname [nick]. *)
Definition lastBound (elements : list str) (i : nat) (nick : str) (j : nat)
  : Prop :=
  j < i /\
  nicknameOf <$> elements !! j = Some nick /\
  forall j', j < j' < i -> nicknameOf <$> elements !! j' <> Some nick.

(** Every chunk carries the wrapper [chunkWrapper] computes for it. *)
Definition wrapped (st : store) : Prop :=
  forall i c, st !! i = Some c ->
    exists w, chunkWrapper st c = Ok w /\ wrapper c = Some w.

(** A text in which the character [x] does not occur. *)
Definition lacks (x : ascii) (s : str) : bool :=
  forallb (fun c => negb (Ascii.eqb c x)) s.

(* ===================================================================== *)
(** * Facts about strings *)
(* ===================================================================== *)

Section Strings.

Lemma startsWith_spec (p s : str) :
  startsWith p s = true <-> exists r, s = p ++ r.
Proof.
  revert s; induction p as [|a p IH]; intros s; simpl.
  - split; [intros _; by exists s | done].
  - destruct s as [|b s]; simpl.
    + split; [done | intros [r Hr]; discriminate].
    + rewrite andb_true_iff, Ascii.eqb_eq, IH. split.
      * intros [-> [r ->]]. by exists r.
      * intros [r Hr]. injection Hr as -> ->. eauto.
Qed.

Lemma startsWith_app (p s : str) : startsWith p (p ++ s) = true.
Proof. apply startsWith_spec; eauto. Qed.

Lemma startsWith_app_r (p s t : str) :
  startsWith p s = true -> startsWith p (s ++ t) = true.
Proof.
  rewrite !startsWith_spec. intros [r ->]. exists (r ++ t).
  by rewrite app_assoc.
Qed.

Lemma str_eqb_eq (a b : str) : str_eqb a b = true <-> a = b.
Proof.
  revert b; induction a as [|x a IH]; intros [|y b]; simpl; try done.
  rewrite andb_true_iff, Ascii.eqb_eq, IH. split.
  - by intros [-> ->].
  - intros [= -> ->]; done.
Qed.

Lemma includes_spec (p s : str) :
  includes p s = true <-> exists u v, s = u ++ p ++ v.
Proof.
  induction s as [|c s IH]; simpl.
  - rewrite orb_false_r, startsWith_spec. split.
    + intros [r Hr]. by exists [], r.
    + intros (u & v & H). symmetry in H.
      apply app_eq_nil in H as [-> H]. exists v. done.
  - rewrite orb_true_iff, startsWith_spec, IH. split.
    + intros [[r Hr] | (u & v & ->)].
      * by exists [], r.
      * by exists (c :: u), v.
    + intros ([|d u] & v & H); simpl in H.
      * left. by exists v.
      * injection H as -> ->. right. by exists u, v.
Qed.

Lemma includes_cons (p : str) (c : ascii) (s : str) :
  includes p (c :: s) = false ->
  startsWith p (c :: s) = false /\ includes p s = false.
Proof. simpl. by intros [? ?]%orb_false_iff. Qed.

Lemma endsWith_cons (p : str) (c : ascii) (s : str) :
  endsWith p (c :: s) = false -> endsWith p s = false.
Proof.
  unfold endsWith. simpl. intros H.
  destruct (startsWith (rev p) (rev s)) eqn:E; [|done].
  by rewrite (startsWith_app_r _ _ [c] E) in H.
Qed.

Lemma split_nonempty (sep : ascii) (s : str) : split sep s <> [].
Proof.
  destruct s as [|c s]; simpl; [done|].
  destruct (Ascii.eqb c sep); [done|]. by destruct (split sep s).
Qed.

Lemma join_cons (sep x : str) (y : str) (l : list str) :
  join sep (x :: y :: l) = x ++ sep ++ join sep (y :: l).
Proof. done. Qed.

(** Joining the pieces of a split gives the text back. *)
Lemma join_split (sep : ascii) (s : str) : join [sep] (split sep s) = s.
Proof.
  induction s as [|c s IH]; simpl; [done|].
  destruct (Ascii.eqb c sep) eqn:E.
  - apply Ascii.eqb_eq in E as ->.
    pose proof (split_nonempty sep s) as Hne.
    destruct (split sep s) as [|h t]; [done|].
    rewrite join_cons, IH. done.
  - pose proof (split_nonempty sep s) as Hne.
    destruct (split sep s) as [|h t]; [done|].
    destruct t as [|h' t]; simpl in *; by rewrite IH.
Qed.

Lemma join_snoc_app (sep : str) (l : list str) (b e : str) :
  join sep (l ++ [b]) ++ e = join sep (l ++ [b ++ e]).
Proof.
  induction l as [|x l IH]; simpl; [done|].
  destruct l as [|y l]; simpl in *.
  - by rewrite <- !app_assoc.
  - rewrite <- !app_assoc. by rewrite IH.
Qed.

Lemma join_snoc (sep : str) (x : str) (l : list str) (b : str) :
  join sep ((x :: l) ++ [b]) = join sep (x :: l) ++ sep ++ b.
Proof.
  revert x; induction l as [|y l IH]; intros x; [done|].
  change ((x :: y :: l) ++ [b]) with (x :: (y :: l) ++ [b]).
  change ((y :: l) ++ [b]) with (y :: l ++ [b]).
  rewrite !join_cons. change (y :: l ++ [b]) with ((y :: l) ++ [b]).
  rewrite IH. by rewrite <- !app_assoc.
Qed.

End Strings.

(* ===================================================================== *)
(** * Facts about the matcher and the global replacement *)
(* ===================================================================== *)

Section Replace.

(** A literal matches exactly where the text starts with it. *)
Lemma matchRe_Lit (p s : str) (k : str -> option str) :
  matchRe (Lit p) s k =
  if startsWith p s then k (drop (length p) s) else None.
Proof.
  revert s; induction p as [|a p IH]; intros s; simpl.
  - by rewrite drop_0.
  - destruct s as [|c s]; [done|]. simpl.
    destruct (Ascii.eqb a c); simpl; [apply IH | done].
Qed.

Lemma exec_Lit (p s : str) :
  exec (Lit p) s = if startsWith p s then Some (drop (length p) s) else None.
Proof. apply matchRe_Lit. Qed.

(** Passing over the rest of a match is dropping it. *)
Lemma replaceFrom_skip (r : regex) (rep : str) :
  exec r [] = None ->
  forall (s : str) (n : nat),
    replaceFrom r rep n s = replaceFrom r rep 0 (drop n s).
Proof.
  intros Hnil. induction s as [|c s IH]; intros n.
  - destruct n; simpl; by rewrite ?Hnil.
  - destruct n as [|n]; [done|]. simpl. apply IH.
Qed.

(** The global replacement of a non-empty literal, one step at a time. *)
Lemma replaceAll_Lit_cons (a : ascii) (p rep : str) (c : ascii) (s : str) :
  replaceAll (Lit (a :: p)) rep (c :: s) =
  if startsWith (a :: p) (c :: s)
  then rep ++ replaceAll (Lit (a :: p)) rep (drop (length p) s)
  else c :: replaceAll (Lit (a :: p)) rep s.
Proof.
  unfold replaceAll. cbn [replaceFrom]. rewrite exec_Lit.
  destruct (startsWith (a :: p) (c :: s)) eqn:E; [|done].
  apply startsWith_spec in E as [t E].
  rewrite E at 1 2. rewrite drop_app_length, length_app.
  replace (length (a :: p) + length t - length t) with (S (length p))
    by (simpl; lia).
  by rewrite replaceFrom_skip.
Qed.

Lemma replaceAll_Lit_app (a : ascii) (p rep s : str) :
  replaceAll (Lit (a :: p)) rep ((a :: p) ++ s) =
  rep ++ replaceAll (Lit (a :: p)) rep s.
Proof.
  change ((a :: p) ++ s) with (a :: (p ++ s)).
  rewrite replaceAll_Lit_cons.
  change (a :: (p ++ s)) with ((a :: p) ++ s).
  by rewrite startsWith_app, drop_app_length.
Qed.

End Replace.

(* ===================================================================== *)
(** * The path transform *)
(* ===================================================================== *)

Section Paths.

Variable pf : platform.

Lemma unflatten_nil : unflattenCorePaths pf [] = [].
Proof. done. Qed.

Lemma unflatten_token (s : str) :
  unflattenCorePaths pf (SLASH_TOKEN ++ s) =
  path_sep pf :: unflattenCorePaths pf s.
Proof.
  unfold unflattenCorePaths, SLASH_TOKEN, lit. simpl list_ascii_of_string.
  by rewrite replaceAll_Lit_app.
Qed.

Lemma unflatten_other (c : ascii) (s : str) :
  startsWith SLASH_TOKEN (c :: s) = false ->
  unflattenCorePaths pf (c :: s) = c :: unflattenCorePaths pf s.
Proof.
  unfold unflattenCorePaths, SLASH_TOKEN, lit. simpl list_ascii_of_string.
  intros H. by rewrite replaceAll_Lit_cons, H.
Qed.

(** Without an occurrence of the token nothing is replaced. *)
Lemma unflatten_tokenFree (s : str) :
  includes SLASH_TOKEN s = false -> unflattenCorePaths pf s = s.
Proof.
  induction s as [|c s IH]; [done|].
  intros [H1 H2]%includes_cons.
  by rewrite unflatten_other, IH.
Qed.

(** A match that begins before a token of the flat name either lies in
    the segment before it or uses the first character of that token. *)
Lemma no_early_match (x r : str) :
  x <> [] ->
  startsWith SLASH_TOKEN (x ++ SLASH_TOKEN ++ r) = true ->
  startsWith SLASH_TOKEN x = true \/ x = lit "-slash".
Proof.
  intros Hne [t Ht]%startsWith_spec.
  unfold SLASH_TOKEN, lit in *. simpl in Ht.
  destruct x as [|c1 [|c2 [|c3 [|c4 [|c5 [|c6 [|c7 x]]]]]]];
    [done|..]; simplify_eq/=; auto.
Qed.

Lemma cleanSegment_cons (c : ascii) (seg : str) :
  cleanSegment (c :: seg) = true -> cleanSegment seg = true.
Proof.
  unfold cleanSegment. rewrite !andb_true_iff, !negb_true_iff.
  intros [[_ H1]%includes_cons H2%endsWith_cons]. done.
Qed.

Lemma unflatten_segment (seg r : str) :
  cleanSegment seg = true ->
  unflattenCorePaths pf (seg ++ SLASH_TOKEN ++ r) =
  seg ++ path_sep pf :: unflattenCorePaths pf r.
Proof.
  induction seg as [|c seg IH]; intros Hc.
  - apply unflatten_token.
  - change ((c :: seg) ++ SLASH_TOKEN ++ r)
      with (c :: (seg ++ SLASH_TOKEN ++ r)).
    rewrite unflatten_other.
    + rewrite IH by (by eapply cleanSegment_cons). done.
    + destruct (startsWith _ _) eqn:E; [|done]. exfalso.
      revert Hc. unfold cleanSegment.
      rewrite andb_true_iff, !negb_true_iff. intros [H1 H2].
      apply (no_early_match (c :: seg)) in E as [E | E]; [| |done].
      * apply includes_cons in H1 as [H1 _]. congruence.
      * rewrite E in H2. discriminate.
Qed.

(** Undoing the flat name of a file below clean directories. *)
Lemma unflatten_join (segs : list str) (b : str) :
  Forall (fun seg => cleanSegment seg = true) segs ->
  includes SLASH_TOKEN b = false ->
  unflattenCorePaths pf (join SLASH_TOKEN (segs ++ [b])) =
  join [path_sep pf] (segs ++ [b]).
Proof.
  intros Hs Hb. induction Hs as [|seg segs Hc Hs IH].
  - by apply unflatten_tokenFree.
  - change ((seg :: segs) ++ [b]) with (seg :: (segs ++ [b])).
    destruct (segs ++ [b]) as [|y l] eqn:E; [by destruct segs|].
    by rewrite !join_cons, unflatten_segment, IH.
Qed.

End Paths.

(* ===================================================================== *)
(** * Properties of the path transform *)
(* ===================================================================== *)

Section PathProperties.

Lemma unflatten_core_prefix (pf : platform) (s : str) :
  unflattenCorePaths pf (CORE ++ path_sep pf :: s) =
  CORE ++ path_sep pf :: unflattenCorePaths pf s.
Proof.
  unfold CORE, lit. simpl list_ascii_of_string. cbn [app].
  rewrite !unflatten_other by done.
  do 4 f_equal. destruct pf; by rewrite unflatten_other.
Qed.

(** The flat name is never longer than the text, and shorter as soon as
    the token occurs. *)
Lemma unflatten_length (pf : platform) (s : str) :
  length (unflattenCorePaths pf s) <= length s /\
  (includes SLASH_TOKEN s = true ->
   length (unflattenCorePaths pf s) < length s).
Proof.
  remember (length s) as n eqn:Hn.
  revert s Hn. induction (lt_wf n) as [n _ IH]. intros s ->.
  assert (IH' : forall t, length t < length s ->
    length (unflattenCorePaths pf t) <= length t /\
    (includes SLASH_TOKEN t = true ->
     length (unflattenCorePaths pf t) < length t)).
  { intros t Ht. by eapply IH. }
  clear IH. destruct s as [|c s]; [split; [done | by intros [=]]|].
  destruct (startsWith SLASH_TOKEN (c :: s)) eqn:E.
  - pose proof E as [t Ht]%startsWith_spec.
    assert (Hlen : length (c :: s) = 7 + length t).
    { rewrite Ht, length_app. done. }
    destruct (IH' t) as [Hle _]; [lia|].
    rewrite Ht, unflatten_token, <- Ht. cbn [length] in *.
    split; [|intros _]; lia.
  - rewrite unflatten_other by done.
    destruct (IH' s) as [Hle Hlt]; [simpl; lia|].
    split; [cbn [length]; lia|]. intros H.
    cbn [includes] in H. rewrite E, orb_false_l in H.
    specialize (Hlt H). cbn [length]. lia.
Qed.

End PathProperties.

(** C2, as stated, fails on a path below core/ whose base name holds the
    token: the reverse transform splits the base name. *)
Lemma roundtrip_breaks_on_token :
  let p := {| dirname := lit "core"; basename := lit "a-slash-b";
              extname := lit ".js" |} in
  head (split (path_sep posix) (dirname p)) = Some CORE /\
  pathString posix p = lit "core/a-slash-b.js" /\
  unflattenCorePaths posix (pathString posix (flattenCorePaths posix p))
    = lit "core/a/b.js" /\
  unflattenCorePaths posix (pathString posix (flattenCorePaths posix p))
    <> pathString posix p.
Proof. vm_compute. repeat split; try reflexivity. discriminate. Qed.

(** C2 (amended): for a path whose first directory segment is core, whose
    further directory segments are clean (they neither contain the token
    nor end with "-slash") and whose file name does not contain the token,
    flattening and then unflattening the resulting path string gives the
    path string back, at any nesting depth. *)
Theorem unflatten_flatten_roundtrip
    (pf : platform) (p : pathObject) (segs : list str) :
  split (path_sep pf) (dirname p) = CORE :: segs ->
  Forall (fun seg => cleanSegment seg = true) segs ->
  includes SLASH_TOKEN (basename p ++ extname p) = false ->
  unflattenCorePaths pf (pathString pf (flattenCorePaths pf p))
    = pathString pf p.
Proof.
  intros Hsplit Hsegs Hfile.
  unfold flattenCorePaths. rewrite Hsplit.
  replace (str_eqb CORE CORE) with true by done.
  unfold pathString. cbn [dirname basename extname].
  rewrite join_snoc_app. cbn [app].
  rewrite unflatten_core_prefix, unflatten_join by done.
  rewrite <- (join_split (path_sep pf) (dirname p)), Hsplit.
  change (path_sep pf :: basename p ++ extname p)
    with ([path_sep pf] ++ (basename p ++ extname p)).
  rewrite <- join_snoc.
  change ((CORE :: segs) ++ [basename p ++ extname p])
    with (CORE :: (segs ++ [basename p ++ extname p])).
  destruct (segs ++ [basename p ++ extname p]) as [|y l] eqn:E;
    [by destruct segs|].
  by rewrite join_cons.
Qed.

(** The round trip of core/events/ui/click.js. *)
Lemma unflatten_flatten_roundtrip_witness :
  let p := {| dirname := lit "core/events/ui"; basename := lit "click";
              extname := lit ".js" |} in
  split (path_sep posix) (dirname p) = [CORE; lit "events"; lit "ui"] /\
  unflattenCorePaths posix (pathString posix (flattenCorePaths posix p))
    = pathString posix p.
Proof.
  split; [reflexivity|].
  apply (unflatten_flatten_roundtrip posix _ [lit "events"; lit "ui"]).
  - reflexivity.
  - repeat constructor.
  - reflexivity.
Defined.

(** C4, as stated, fails on a path outside core/ that holds the token: the
    forward transform leaves it alone, the reverse transform rewrites it. *)
Lemma unflatten_changes_untouched_path :
  let p := {| dirname := lit "blocks"; basename := lit "a-slash-b";
              extname := lit ".js" |} in
  flattenCorePaths posix p = p /\
  unflattenCorePaths posix (pathString posix p) = lit "blocks/a/b.js" /\
  unflattenCorePaths posix (pathString posix p) <> pathString posix p.
Proof. vm_compute. repeat split; try reflexivity. discriminate. Qed.

(** C4 (amended): the reverse transform is a no-op on a string exactly when
    the token "-slash-" does not occur in it; in particular it is a no-op on
    every string without the token, whether or not the forward transform
    would have modified the path. *)
Theorem unflatten_noop_iff (pf : platform) (s : str) :
  unflattenCorePaths pf s = s <-> includes SLASH_TOKEN s = false.
Proof.
  split.
  - intros Heq. destruct (includes SLASH_TOKEN s) eqn:E; [|done].
    apply (unflatten_length pf) in E. rewrite Heq in E. lia.
  - apply unflatten_tokenFree.
Qed.

(** C9: flattening twice is flattening once. *)
Theorem flatten_idempotent (pf : platform) (p : pathObject) :
  flattenCorePaths pf (flattenCorePaths pf p) = flattenCorePaths pf p.
Proof.
  unfold flattenCorePaths at 2 3.
  destruct (split (path_sep pf) (dirname p)) as [|d0 rest] eqn:Hsplit.
  - unfold flattenCorePaths. by rewrite Hsplit.
  - destruct (str_eqb d0 CORE) eqn:Hcore.
    + apply str_eqb_eq in Hcore as ->.
      unfold flattenCorePaths. cbn [dirname basename extname].
      replace (split (path_sep pf) CORE) with [CORE] by (by destruct pf).
      replace (str_eqb CORE CORE) with true by done.
      done.
    + unfold flattenCorePaths. by rewrite Hsplit, Hcore.
Qed.

(** Outside the reserved directory the forward transform changes nothing. *)
Lemma flatten_outside_core (pf : platform) (p : pathObject) :
  head (split (path_sep pf) (dirname p)) <> Some CORE ->
  flattenCorePaths pf p = p.
Proof.
  unfold flattenCorePaths.
  destruct (split (path_sep pf) (dirname p)) as [|d0 rest]; [done|].
  destruct (str_eqb d0 CORE) eqn:E; [|done].
  apply str_eqb_eq in E as ->. by intros [].
Qed.

(** After one application the directory is the reserved name alone. *)
Lemma flatten_dirname (pf : platform) (p : pathObject) :
  head (split (path_sep pf) (dirname p)) = Some CORE ->
  dirname (flattenCorePaths pf p) = CORE.
Proof.
  unfold flattenCorePaths.
  destruct (split (path_sep pf) (dirname p)) as [|d0 rest]; [done|].
  intros [= ->]. by replace (str_eqb CORE CORE) with true by done.
Qed.

(* ===================================================================== *)
(** * The chunk store under getChunkOptions *)
(* ===================================================================== *)

Section Store.

Implicit Types (st : store) (env : nicknames) (c : chunk).

Lemma map_fmap {A B} (f : A -> B) (l : list A) : map f l = f <$> l.
Proof. induction l; simpl; by f_equal. Qed.

Lemma declaredFields_set_dependencies c ds :
  declaredFields (set_dependencies c ds) = declaredFields c.
Proof. done. Qed.

Lemma declaredFields_set_wrapper c w :
  declaredFields (set_wrapper c w) = declaredFields c.
Proof. done. Qed.

(** Overwriting a chunk by one with the same value under [f] does not
    change the values under [f]. *)
Lemma map_insert_same {B} (f : chunk -> B) st i c c' :
  st !! i = Some c -> f c' = f c ->
  map f (<[i := c']> st) = map f st.
Proof.
  intros Hi Hf. rewrite !map_fmap, list_fmap_insert, Hf.
  apply list_insert_id. by rewrite list_lookup_fmap, Hi.
Qed.

Lemma frame_refl i n st : frame i n st st.
Proof. by split. Qed.

Lemma frame_length i n st st' : frame i n st st' -> length st' = length st.
Proof.
  intros [H _]. apply (f_equal length) in H.
  by rewrite !length_map in H.
Qed.

Lemma frame_insert i st c c' :
  st !! i = Some c -> declaredFields c' = declaredFields c ->
  frame i 1 st (<[i := c']> st).
Proof.
  intros Hi Hd. split.
  - by apply map_insert_same with c.
  - intros j Hj. apply list_lookup_insert_ne. lia.
Qed.

Lemma frame_step i n st st1 st2 :
  frame i 1 st st1 -> frame (S i) n st1 st2 -> frame i (S n) st st2.
Proof.
  intros [Hd1 Hf1] [Hd2 Hf2]. split; [congruence|].
  intros j Hj. rewrite Hf2, Hf1; [done | lia | lia].
Qed.

(** The callback, case by case. *)
Lemma mapCallback_spec env st element i :
  match st !! i with
  | None => mapCallback env st element i = (Throw TypeError, st)
  | Some c =>
      let env' := <[nicknameOf element := i]> env in
      let deps := map (fun nick => env' !! nick) (dependencyNicksOf element) in
      let st' := <[i := set_dependencies c deps]> st in
      match mapM (deref st') deps with
      | None => mapCallback env st element i = (Throw TypeError, st')
      | Some _ => exists s, mapCallback env st element i = (Ok (s, env'), st')
      end
  end.
Proof.
  unfold mapCallback, nicknameOf, dependencyNicksOf.
  destruct (st !! i) as [c|]; [|done].
  destruct (split ":" element !! 2) as [[|a dn]|]; simpl; eauto.
  destruct (mapM _ _); eauto.
Qed.

Lemma mapCallback_frame env st element i r st' :
  mapCallback env st element i = (r, st') -> frame i 1 st st'.
Proof.
  pose proof (mapCallback_spec env st element i) as H.
  destruct (st !! i) as [c|] eqn:Hi.
  - cbv zeta in H. destruct (mapM _ _).
    + destruct H as [s ->]. intros [= <- <-]. by apply frame_insert with c.
    + rewrite H. intros [= <- <-]. by apply frame_insert with c.
  - rewrite H. intros [= <- <-]. apply frame_refl.
Qed.

Lemma mapChunks_frame elements : forall env st i r st',
  mapChunks env st i elements = (r, st') ->
  frame i (length elements) st st'.
Proof.
  induction elements as [|element rest IH]; intros env st i r st'; simpl.
  - intros [= <- <-]. apply frame_refl.
  - destruct (mapCallback env st element i) as [[[s env1]|e] st1] eqn:E1.
    + apply mapCallback_frame in E1.
      destruct (mapChunks env1 st1 (S i) rest) as [[l|e] st2] eqn:E2;
        apply IH in E2; intros [= <- <-]; by eapply frame_step.
    + apply mapCallback_frame in E1. intros [= <- <-].
      destruct E1 as [Hd Hf]. split; [done|]. intros j Hj. apply Hf. lia.
Qed.

(** Wrapper generation writes the [wrapper] property only. *)
Lemma wrapEach_frame indices : forall st r st',
  wrapEach indices st = (r, st') ->
  map declaredFields st' = map declaredFields st /\
  map dependencies st' = map dependencies st.
Proof.
  induction indices as [|i rest IH]; intros st r st'; simpl.
  - by intros [= <- <-].
  - destruct (st !! i) as [c|] eqn:Hi; [|by intros [= <- <-]].
    destruct (chunkWrapper st c) as [w|e]; [|by intros [= <- <-]].
    intros [H1 H2]%IH.
    rewrite H1, H2. split; by apply map_insert_same with c.
Qed.

End Store.

Section Mismatch.

Implicit Types (st : store) (env : nicknames) (c : chunk).

(** More descriptors than chunks: the callback reaches a position without
    a chunk and throws. *)
Lemma mapChunks_overflow elements : forall env st i,
  i <= length st -> length st < i + length elements ->
  exists st', mapChunks env st i elements = (Throw TypeError, st').
Proof.
  induction elements as [|element rest IH]; intros env st i Hi Hlen;
    simpl in *; [lia|].
  destruct (mapCallback env st element i) as [[[s env1]|[]] st1] eqn:E1;
    [|eauto].
  pose proof (mapCallback_frame _ _ _ _ _ _ E1) as Hf%frame_length.
  pose proof (mapCallback_spec env st element i) as Hs.
  destruct (st !! i) as [c|] eqn:Hc; [|congruence].
  apply lookup_lt_Some in Hc.
  destruct (IH env1 st1 (S i)) as [st2 ->]; [lia | lia | eauto].
Qed.

(** A chunk without [dependencies] makes wrapper generation throw. *)
Lemma wrapEach_throw indices : forall st i c,
  i ∈ indices -> st !! i = Some c -> dependencies c = None ->
  Forall (fun j => j < length st) indices ->
  exists st', wrapEach indices st = (Throw TypeError, st').
Proof.
  induction indices as [|j rest IH]; intros st i c Hin Hi Hnone Hvalid.
  - by apply elem_of_nil in Hin.
  - apply Forall_cons in Hvalid as [Hj Hrest]. simpl.
    destruct (lookup_lt_is_Some_2 st j Hj) as [cj Hcj]. rewrite Hcj.
    destruct (chunkWrapper st cj) as [w|[]] eqn:Hw; [|eauto].
    apply elem_of_cons in Hin as [-> | Hin].
    + unfold chunkWrapper in Hw. replace cj with c in Hw by congruence.
      by rewrite Hnone in Hw.
    + destruct (decide (i = j)) as [-> | Hne].
      * unfold chunkWrapper in Hw. replace cj with c in Hw by congruence.
        by rewrite Hnone in Hw.
      * apply (IH _ i c); [done | | done |].
        -- by rewrite list_lookup_insert_ne.
        -- by rewrite length_insert.
Qed.

(** The first descriptor is aligned with the first chunk before anything
    can make the run throw: whatever the outcome, the first chunk has got
    its [dependencies]. *)
Lemma first_chunk_written (raw : rawOptions) st (e0 : str) c0 :
  raw_chunk raw !! 0 = Some e0 -> st !! 0 = Some c0 ->
  exists c ds,
    snd (getChunkOptions st raw) !! 0 = Some c /\ dependencies c = Some ds.
Proof.
  intros He Hc. unfold getChunkOptions.
  destruct (raw_chunk raw) as [|e rest]; [done|]. injection He as ->.
  assert (Hmap : exists c ds,
    snd (mapChunks ∅ st 0 (e0 :: rest)) !! 0 = Some c /\
    dependencies c = Some ds).
  { cbn [mapChunks].
    pose proof (mapCallback_spec ∅ st e0 0) as Hs. rewrite Hc in Hs.
    cbv zeta in Hs.
    set (ds := map (fun nick => <[nicknameOf e0 := 0]> (∅ : nicknames) !! nick)
                   (dependencyNicksOf e0)) in *.
    assert (Hw : <[0 := set_dependencies c0 ds]> st !! 0
                 = Some (set_dependencies c0 ds)).
    { apply list_lookup_insert_eq. by eapply lookup_lt_Some. }
    destruct (mapM _ _) as [deps|].
    - destruct Hs as [s ->].
      destruct (mapChunks _ _ 1 rest) as [[l2|e] st2] eqn:E2;
        apply mapChunks_frame in E2 as [_ Hf]; cbn [snd];
        rewrite Hf by lia; eauto.
    - rewrite Hs. cbn [snd]. eauto. }
  destruct (mapChunks ∅ st 0 (e0 :: rest)) as [[l|e] st1]; [|exact Hmap].
  destruct Hmap as (c & ds & Hc1 & Hds). cbn [snd] in Hc1.
  assert (Hkeep : forall st2, map dependencies st2 = map dependencies st1 ->
            exists c2 ds2, st2 !! 0 = Some c2 /\ dependencies c2 = Some ds2).
  { intros st2 Hd. rewrite !map_fmap in Hd.
    apply (f_equal (fun xs => xs !! 0)) in Hd.
    rewrite !list_lookup_fmap, Hc1 in Hd. simpl in Hd.
    destruct (st2 !! 0) as [c2|]; [|done]. injection Hd as Hd.
    exists c2, ds. split; [done | congruence]. }
  destruct (wrapEach (seq 0 (length st1)) st1) as [[u|e] st2] eqn:E2;
    apply wrapEach_frame in E2 as [_ Hd]; cbn [snd]; by apply Hkeep.
Qed.

End Mismatch.

(** C3, as stated, fails.  With one descriptor for two declared chunks
    [getChunkOptions] first writes the dependencies of the first chunk and
    throws only when it generates the wrappers; and when the chunks still
    carry the dependencies of an earlier run it aligns the one descriptor by
    position and returns its options without any error. *)
Lemma no_length_check_before_zip :
  let declared := take 2 chunks in
  let two := {| raw_chunk := [lit "requires:258"; lit "all:10:requires"];
                raw_js := [] |} in
  let one := {| raw_chunk := [lit "requires:258"]; raw_js := [] |} in
  length (raw_chunk one) <> length declared /\
  fst (getChunkOptions declared one) = Throw TypeError /\
  map dependencies (snd (getChunkOptions declared one)) = [Some []; None] /\
  exists out,
    fst (getChunkOptions (snd (getChunkOptions declared two)) one) = Ok out /\
    chunk_ out = [lit "blockly:258"] /\ length (chunk_wrapper out) = 2.
Proof.
  intros declared two one.
  split; [vm_compute; lia|].
  split; [by vm_compute|].
  split; [by vm_compute|].
  eexists. split; [vm_compute; reflexivity|].
  split; by vm_compute.
Qed.

(** C3 (amended): [getChunkOptions] makes no length check before it aligns
    the descriptors with the chunks by position.  On the chunks as declared
    (none has [dependencies] yet) a mismatch in number ends in a thrown
    TypeError, and when there is at least one descriptor and one chunk the
    first chunk has already got its [dependencies] by the time of the
    throw. *)
Theorem mismatch_throws_on_declared_chunks (st : store) (raw : rawOptions) :
  Forall (fun c => dependencies c = None) st ->
  length (raw_chunk raw) <> length st ->
  exists st',
    getChunkOptions st raw = (Throw TypeError, st') /\
    (raw_chunk raw <> [] -> st <> [] ->
     exists c ds, st' !! 0 = Some c /\ dependencies c = Some ds).
Proof.
  intros Hfresh Hlen.
  assert (Hthrow : exists st', getChunkOptions st raw = (Throw TypeError, st')).
  { unfold getChunkOptions.
    destruct (decide (length st < length (raw_chunk raw))) as [Hgt | Hle].
    - destruct (mapChunks_overflow (raw_chunk raw) ∅ st 0) as [st' ->];
        [lia | lia | eauto].
    - destruct (mapChunks ∅ st 0 (raw_chunk raw)) as [[l|[]] st1] eqn:E;
        [|eauto].
      apply mapChunks_frame in E. pose proof (frame_length _ _ _ _ E) as Hl.
      destruct E as [_ Hf].
      destruct (lookup_lt_is_Some_2 st (length (raw_chunk raw))) as [c Hc];
        [lia|].
      destruct (wrapEach_throw (seq 0 (length st1)) st1
                  (length (raw_chunk raw)) c) as [st2 ->]; [| | | |eauto].
      + apply elem_of_seq. lia.
      + rewrite Hf by lia. done.
      + rewrite Forall_forall in Hfresh. apply Hfresh.
        by eapply list_elem_of_lookup_2.
      + apply Forall_forall. intros j Hj%elem_of_seq. lia. }
  destruct Hthrow as [st' Hrun]. exists st'. split; [done|].
  intros Hraw Hst.
  destruct (raw_chunk raw) as [|e0 rest] eqn:Er; [done|].
  destruct st as [|c0 st0]; [done|].
  destruct (first_chunk_written raw (c0 :: st0) e0 c0) as (c & ds & Hc & Hds);
    [by rewrite Er | done |].
  rewrite Hrun in Hc. eauto.
Qed.

(** Two descriptors for the seven declared chunks. *)
Lemma mismatch_throws_on_declared_chunks_witness :
  exists st',
    getChunkOptions chunks
      {| raw_chunk := [lit "requires:258"; lit "all:10:requires"];
         raw_js := [] |} = (Throw TypeError, st') /\
    exists c ds, st' !! 0 = Some c /\ dependencies c = Some ds.
Proof.
  destruct (mismatch_throws_on_declared_chunks chunks
    {| raw_chunk := [lit "requires:258"; lit "all:10:requires"];
       raw_js := [] |}) as (st' & Hrun & Hfirst).
  - repeat constructor.
  - simpl. lia.
  - exists st'. split; [done|]. by apply Hfirst.
Defined.

(** C8, as stated, fails: after a run the chunk objects of the array carry
    the two new properties. *)
Lemma getChunkOptions_writes_the_chunks :
  let declared := take 2 chunks in
  let raw := {| raw_chunk := [lit "requires:258"; lit "all:10:requires"];
                raw_js := [] |} in
  map dependencies declared = [None; None] /\
  map dependencies (snd (getChunkOptions declared raw))
    = [Some []; Some [Some 0]] /\
  Forall (fun c => wrapper c <> None) (snd (getChunkOptions declared raw)) /\
  snd (getChunkOptions declared raw) <> declared.
Proof.
  intros declared raw.
  split; [by vm_compute|].
  split; [by vm_compute|].
  split; [vm_compute; repeat constructor; discriminate|].
  vm_compute. discriminate.
Qed.

(** C8 (amended): [getChunkOptions], wrapper generation included, leaves the
    declared fields (name, entry, exports, importAs, factoryPreamble,
    factoryPostamble) of every chunk as they were, on every outcome; its
    results for a chunk are written onto the chunk object itself, as the
    properties dependencies and wrapper. *)
Theorem getChunkOptions_keeps_declared_fields
    (st : store) (raw : rawOptions) :
  map declaredFields (snd (getChunkOptions st raw)) = map declaredFields st.
Proof.
  unfold getChunkOptions.
  destruct (mapChunks ∅ st 0 (raw_chunk raw)) as [[l|e] st1] eqn:E1;
    apply mapChunks_frame in E1 as [Hd _]; [|done].
  destruct (wrapEach (seq 0 (length st1)) st1) as [[u|e] st2] eqn:E2;
    apply wrapEach_frame in E2 as [Hd2 _]; simpl; congruence.
Qed.

Section Resolution.

Implicit Types (st : store) (env : nicknames) (c : chunk).

(** What a successful callback has written at its position. *)
Lemma mapCallback_Ok env st element i s env1 st1 :
  mapCallback env st element i = (Ok (s, env1), st1) ->
  exists c,
    st !! i = Some c /\
    env1 = <[nicknameOf element := i]> env /\
    let deps := map (fun nick => env1 !! nick) (dependencyNicksOf element) in
    st1 = <[i := set_dependencies c deps]> st /\
    is_Some (mapM (deref st1) deps).
Proof.
  pose proof (mapCallback_spec env st element i) as H.
  destruct (st !! i) as [c|] eqn:Hi; [|congruence].
  cbv zeta in H. destruct (mapM _ _) eqn:Hm; [|congruence].
  destruct H as [s' ->]. intros [= ? ? ?]; subst. exists c.
  cbv zeta. rewrite Hm. eauto.
Qed.

Lemma deref_is_Some st d :
  is_Some (deref st d) <-> exists j, d = Some j /\ j < length st.
Proof.
  destruct d as [j|]; simpl.
  - rewrite lookup_lt_is_Some. split; [eauto|]. by intros (? & [= <-] & ?).
  - split; [by intros [? ?] | by intros (? & ? & ?)].
Qed.

(** On success every descriptor has given its chunk a dependency list of
    references to chunks at the same or an earlier position, one for each
    nickname the descriptor names. *)
Lemma mapChunks_Ok elements : forall env st i l st',
  (forall nick j, env !! nick = Some j -> j < i) ->
  mapChunks env st i elements = (Ok l, st') ->
  forall k element, elements !! k = Some element ->
    exists c ds,
      st' !! (i + k) = Some c /\ dependencies c = Some ds /\
      refersUpTo (i + k) ds /\
      length ds = length (dependencyNicksOf element) /\
      (nicknameOf element ∈ dependencyNicksOf element -> Some (i + k) ∈ ds).
Proof.
  induction elements as [|element rest IH]; intros env st i l st' Henv;
    simpl; [intros _ k e Hk; by rewrite lookup_nil in Hk|].
  destruct (mapCallback env st element i) as [[[s env1]|e] st1] eqn:E1;
    [|done].
  destruct (mapChunks env1 st1 (S i) rest) as [[l2|e] st2] eqn:E2; [|done].
  intros [= <- <-].
  apply mapCallback_Ok in E1 as (c & Hc & -> & Hst1 & Hsome).
  cbv zeta in Hst1, Hsome.
  set (env1 := <[nicknameOf element := i]> env) in *.
  assert (Henv1 : forall nick j, env1 !! nick = Some j -> j < S i).
  { intros nick j. unfold env1. rewrite lookup_insert.
    case_decide; [intros [= <-]; lia | intros ?%Henv; lia]. }
  intros [|k] el Hk.
  - injection Hk as ->. rewrite Nat.add_0_r.
    pose proof (mapChunks_frame _ _ _ _ _ _ E2) as [_ Hf].
    exists (set_dependencies c
              (map (fun nick => env1 !! nick) (dependencyNicksOf el))).
    eexists. split; [|split; [done|]].
    { rewrite Hf by lia. rewrite Hst1.
      apply list_lookup_insert_eq. by eapply lookup_lt_Some. }
    split; [|split].
    + apply mapM_is_Some_1 in Hsome. unfold refersUpTo.
      rewrite Forall_forall in Hsome |- *. intros d Hd.
      destruct (Hsome d Hd) as [c' Hc']. simpl in Hc'.
      destruct d as [j|]; [|done]. exists j. split; [done|].
      rewrite map_fmap in Hd. apply list_elem_of_fmap in Hd as (nick & Hj & _).
      symmetry in Hj. apply Henv1 in Hj. lia.
    + by rewrite length_map.
    + intros Hself. rewrite map_fmap. apply list_elem_of_fmap.
      exists (nicknameOf el). split; [|done].
      unfold env1. by rewrite lookup_insert_eq.
  - replace (i + S k) with (S i + k) by lia. by eapply IH.
Qed.

(** A dependency nickname that no descriptor up to its own has bound makes
    the run throw. *)
Lemma mapChunks_unbound elements : forall env st i k element nick,
  elements !! k = Some element ->
  nick ∈ dependencyNicksOf element ->
  env !! nick = None ->
  (forall j e, j <= k -> elements !! j = Some e -> nicknameOf e <> nick) ->
  exists st', mapChunks env st i elements = (Throw TypeError, st').
Proof.
  induction elements as [|e0 rest IH];
    intros env st i k element nick Hk Hin Hnone Hfresh; [done|].
  simpl.
  pose proof (mapCallback_spec env st e0 i) as Hs.
  destruct (st !! i) as [c|] eqn:Hc; [|rewrite Hs; eauto].
  cbv zeta in Hs.
  set (env1 := <[nicknameOf e0 := i]> env) in *.
  assert (Hnone1 : env1 !! nick = None).
  { unfold env1. rewrite lookup_insert_ne; [done|].
    by apply (Hfresh 0 e0); [lia|]. }
  destruct k as [|k].
  - injection Hk as ->.
    destruct (mapM _ _) eqn:Hm; [|rewrite Hs; eauto].
    exfalso. apply mk_is_Some, mapM_is_Some_1 in Hm.
    rewrite Forall_forall in Hm.
    destruct (Hm None) as [? ?]; [|done].
    rewrite map_fmap. apply list_elem_of_fmap. by exists nick.
  - destruct (mapM _ _) eqn:Hm; [|rewrite Hs; eauto].
    destruct Hs as [s ->].
    match goal with |- context [mapChunks env1 ?st1 (S i) rest] =>
      destruct (IH env1 st1 (S i) k element nick) as [st' ->] end;
      eauto.
    intros j e Hj He. apply (Hfresh (S j) e); [lia | done].
Qed.

End Resolution.

Section Success.

Implicit Types (st : store) (env : nicknames) (c : chunk).

(** Descriptors whose dependency nicknames are all bound when they are
    looked up are all accepted. *)
Lemma mapChunks_succeeds elements : forall env st i,
  i + length elements <= length st ->
  (forall nick j, env !! nick = Some j -> j < i) ->
  (forall k element nick,
      elements !! k = Some element -> nick ∈ dependencyNicksOf element ->
      is_Some (env !! nick) \/
      exists j e, j <= k /\ elements !! j = Some e /\ nicknameOf e = nick) ->
  exists l st', mapChunks env st i elements = (Ok l, st').
Proof.
  induction elements as [|e0 rest IH]; intros env st i Hlen Henv Hres;
    simpl in *; [eauto|].
  pose proof (mapCallback_spec env st e0 i) as Hs.
  destruct (lookup_lt_is_Some_2 st i) as [c Hc]; [lia|].
  rewrite Hc in Hs. cbv zeta in Hs.
  set (env1 := <[nicknameOf e0 := i]> env) in *.
  assert (Henv1 : forall nick j, env1 !! nick = Some j -> j < S i).
  { intros nick j. unfold env1. rewrite lookup_insert.
    case_decide; [intros [= <-]; lia | intros ?%Henv; lia]. }
  assert (Hkeep : forall nick, is_Some (env !! nick) -> is_Some (env1 !! nick)).
  { intros nick. unfold env1. rewrite lookup_insert.
    case_decide; eauto. }
  destruct (mapM _ _) eqn:Hm.
  - destruct Hs as [s ->].
    match goal with |- context [mapChunks env1 ?st1 (S i) rest] =>
      destruct (IH env1 st1 (S i)) as (l' & st' & ->) end; eauto.
    + rewrite length_insert. lia.
    + intros k element nick Hk Hin.
      destruct (Hres (S k) element nick Hk Hin)
        as [Hb | ([|j] & e & Hj & He & Hn)]; [by auto | |].
      * left. injection He as ->. unfold env1. rewrite <- Hn.
        by rewrite lookup_insert_eq.
      * right. exists j, e. split; [lia | done].
  - exfalso. apply mapM_None_1, Exists_exists in Hm as (d & Hd & Hnone).
    rewrite map_fmap in Hd. apply list_elem_of_fmap in Hd as (nick & -> & Hin).
    assert (Hb : is_Some (env1 !! nick)).
    { destruct (Hres 0 e0 nick eq_refl Hin)
        as [Hb | (j & e & Hj & He & Hn)]; [by auto|].
      assert (j = 0) as -> by lia. injection He as ->.
      unfold env1. rewrite <- Hn. by rewrite lookup_insert_eq. }
    destruct Hb as [j Hj]. rewrite Hj in Hnone. simpl in Hnone.
    apply Henv1 in Hj. apply lookup_ge_None in Hnone.
    rewrite length_insert in Hnone. lia.
Qed.

(** Wrapper generation succeeds on a resolved store. *)
Lemma wrapEach_succeeds indices : forall st,
  resolved st -> exists st', wrapEach indices st = (Ok tt, st').
Proof.
  induction indices as [|i rest IH]; intros st Hres; simpl; [eauto|].
  destruct (st !! i) as [c|] eqn:Hc; [|eauto].
  pose proof Hres as Hall. unfold resolved in Hall.
  rewrite Forall_forall in Hall.
  destruct (Hall c) as (ds & Hds & Hrefs);
    [by eapply list_elem_of_lookup_2|].
  unfold chunkWrapper. rewrite Hds.
  destruct (mapM (deref st) ds) eqn:Hm.
  - apply IH. unfold resolved. rewrite length_insert.
    apply Forall_insert; [done|]. exists ds. done.
  - exfalso. apply mapM_None_1, Exists_exists in Hm as (d & Hd & Hnone).
    rewrite Forall_forall in Hrefs. destruct (Hrefs d Hd) as (j & -> & Hj).
    simpl in Hnone. apply lookup_ge_None in Hnone. lia.
Qed.

(** The dependency lists that reach the end of [getChunkOptions]. *)
Lemma dependencies_kept st st' i c :
  map dependencies st' = map dependencies st -> st !! i = Some c ->
  exists c', st' !! i = Some c' /\ dependencies c' = dependencies c.
Proof.
  intros Hmap Hi. rewrite !map_fmap in Hmap.
  apply (f_equal (fun l => l !! i)) in Hmap.
  rewrite !list_lookup_fmap, Hi in Hmap. simpl in Hmap.
  destruct (st' !! i) as [c'|]; [|done]. injection Hmap as Hd. eauto.
Qed.

End Success.

(** The run on the first two declared chunks with the descriptors the source
    quotes: the strings for the compiler, and the dependencies written onto
    the chunks. *)
Example getChunkOptions_two_chunks :
  let raw := {| raw_chunk := [lit "requires:258"; lit "all:10:requires"];
                raw_js := [lit "./core/blockly.js"] |} in
  (exists out,
     fst (getChunkOptions (take 2 chunks) raw) = Ok out /\
     chunk_ out = [lit "blockly:258"; lit "blocks:10:blockly"] /\
     js out = [lit "./core/blockly.js"] /\
     length (chunk_wrapper out) = 2) /\
  map dependencies (snd (getChunkOptions (take 2 chunks) raw))
    = [Some []; Some [Some 0]].
Proof.
  intros raw. split; [|by vm_compute].
  eexists. split; [vm_compute; reflexivity|].
  repeat split; by vm_compute.
Qed.









(* ===================================================================== *)
(** * The wrappers *)
(* ===================================================================== *)

Section Wrappers.

Variables a b : ascii.

Lemma follows_app_Some (p q r : bool) (x y : str) :
  follows a b p x = Some q -> follows a b q y = Some r ->
  follows a b p (x ++ y) = Some r.
Proof.
  revert p. induction x as [|c x IH]; intros p; simpl.
  - by intros [= ->].
  - destruct (p && Ascii.eqb c b); [done | apply IH].
Qed.

Lemma follows_found (u v : str) : forall p,
  follows a b p (u ++ a :: b :: v) = None.
Proof.
  induction u as [|c u IH]; intros p; simpl.
  - destruct (p && Ascii.eqb a b); [done|].
    by rewrite !Ascii.eqb_refl.
  - destruct (p && Ascii.eqb c b); [done | apply IH].
Qed.

(** The scan finds every occurrence of the two characters. *)
Lemma includes_follows (p : bool) (s : str) :
  includes [a; b] s = true -> follows a b p s = None.
Proof. intros (u & v & ->)%includes_spec. apply follows_found. Qed.

End Wrappers.

Section WrapperBraces.

Lemma plain_app (x y : str) : plain (x ++ y) = plain x && plain y.
Proof. apply forallb_app. Qed.

Lemma plain_join (sep : str) (l : list str) :
  plain sep = true -> Forall (fun x => plain x = true) l ->
  plain (join sep l) = true.
Proof.
  intros Hsep Hl. induction Hl as [|x l Hx Hl IH]; [done|].
  destruct l as [|y l]; [done|].
  rewrite join_cons, !plain_app, Hx, Hsep. exact IH.
Qed.

(** No closing brace follows an opening brace in a text without braces. *)
Lemma follows_plain (s : str) :
  plain s = true -> follows "{" "}" false s = Some false.
Proof.
  induction s as [|c s IH]; [done|]. simpl.
  intros [[Ho _]%negb_true_iff%orb_false_iff Hs]%andb_true_iff.
  rewrite Ho. auto.
Qed.

(** What a declared chunk contributes to the wrapper of a dependent has
    no braces. *)
Lemma declaredChunk_plain (d : chunk) :
  declaredChunk d ->
  plain (JSON_stringify (lit "./" ++ name d ++ COMPILED_SUFFIX ++ lit ".js"))
    = true /\
  plain (lit "root." ++ exports d) = true /\
  plain (joined (importAs d)) = true.
Proof.
  unfold declaredChunk, declaredFields. cbn [map chunks declare].
  intros H.
  repeat (apply elem_of_cons in H as [H | H];
          [injection H as -> _ -> -> _ _; by vm_compute|]).
  by apply elem_of_nil in H.
Qed.

Lemma header_no_empty_braces (deps : list chunk) (c : chunk) :
  Forall declaredChunk deps -> plain (exports c) = true ->
  follows "{" "}" false (wrapperHeader deps c) = Some false.
Proof.
  intros Hdeps Hc. unfold wrapperHeader. cbv zeta.
  assert (Hjoin : forall f : chunk -> str,
    (forall d, declaredChunk d -> plain (f d) = true) ->
    follows "{" "}" false (join (lit ", ") (map f deps)) = Some false).
  { intros f Hf. apply follows_plain, plain_join; [done|].
    apply Forall_map. eapply Forall_impl; [exact Hdeps|]. exact Hf. }
  rewrite map_map.
  repeat (eapply follows_app_Some;
    [ first [ apply Hjoin; intros d Hd
            | by apply follows_plain
            | vm_compute; reflexivity ] | ]);
    try (vm_compute; reflexivity).
  - by apply declaredChunk_plain.
  - rewrite !plain_app.
    destruct (declaredChunk_plain d Hd) as (-> & _ & _). done.
  - by apply declaredChunk_plain.
  - by apply declaredChunk_plain.
Qed.

End WrapperBraces.

Section WrapperRule.

Lemma no_empty_braces (p : bool) (s : str) :
  follows "{" "}" false s = Some p -> includes (lit "{}") s = false.
Proof.
  intros Hf. destruct (includes (lit "{}") s) eqn:E; [|done].
  apply (includes_follows "{" "}" false) in E. congruence.
Qed.

Lemma declaredFields_plain_exports (c : chunk) (i : nat) :
  declaredFields <$> chunks !! i = Some (declaredFields c) ->
  plain (exports c) = true.
Proof.
  intros H.
  do 7 (destruct i as [|i]; [injection H as _ _ <- _ _ _; by vm_compute|]).
  done.
Qed.

End WrapperRule.

(** The text of a wrapper for the declared fields of the chunk at position
    [i], over dependencies that are declared chunks. *)
Lemma wrapperText_root_rule (deps : list chunk) (c : chunk) (i : nat) :
  Forall declaredChunk deps ->
  declaredFields <$> chunks !! i = Some (declaredFields c) ->
  includes (lit "{}") (wrapperHeader deps c) = false /\
  match i with
  | O =>
      wrapperText deps c =
        wrapperHeader deps c ++
        lit "const $={};" ++ [LF] ++
        lit "%output%" ++ [LF] ++
        lit "$.Blockly.internal_=$;" ++ [LF] ++
        lit "return $.Blockly;" ++ [LF] ++
        lit "}));" ++ [LF]
  | S _ =>
      wrapperText deps c =
        wrapperHeader deps c ++
        lit "const $=Blockly.internal_;" ++ [LF] ++
        lit "%output%" ++ [LF] ++
        [LF] ++
        lit "return $." ++ exports c ++ lit ";" ++ [LF] ++
        lit "}));" ++ [LF] /\
      includes (lit "{}") (wrapperText deps c) = false
  end.
Proof.
  intros Hdeps Hc.
  pose proof (header_no_empty_braces deps c Hdeps
                (declaredFields_plain_exports c i Hc)) as Hh.
  split; [by eapply no_empty_braces|].
  destruct i as [|i].
  - injection Hc as _ _ Hx _ Hp Hq.
    unfold wrapperText. by rewrite <- Hx, <- Hp, <- Hq.
  - assert (Hp : factoryPreamble c = None /\ factoryPostamble c = None).
    { do 6 (destruct i as [|i]; [by injection Hc as _ _ _ _ <- <-|]). done. }
    destruct Hp as [Hp Hq].
    assert (Heq : wrapperText deps c =
        wrapperHeader deps c ++
        lit "const $=Blockly.internal_;" ++ [LF] ++
        lit "%output%" ++ [LF] ++
        [LF] ++
        lit "return $." ++ exports c ++ lit ";" ++ [LF] ++
        lit "}));" ++ [LF]).
    { unfold wrapperText. by rewrite Hp, Hq. }
    split; [exact Heq|]. rewrite Heq.
    apply (no_empty_braces false).
    eapply follows_app_Some; [exact Hh|].
    do 6 (destruct i as [|i];
      [injection Hc as _ _ <- _ _ _; vm_compute; reflexivity|]).
    done.
Qed.

(** The chunks a store with the declared fields of [chunks] holds are
    declared chunks, and so are those its references lead to. *)
Lemma deref_declaredChunk (st : store) (ds : list (option nat))
    (deps : list chunk) :
  map declaredFields st = map declaredFields chunks ->
  mapM (deref st) ds = Some deps ->
  Forall declaredChunk deps.
Proof.
  intros Hst Hm. apply mapM_Some_1 in Hm.
  induction Hm as [|d x ds deps Hd _ IH]; [apply Forall_nil_2|].
  apply Forall_cons_2; [|exact IH].
  unfold declaredChunk. rewrite <- Hst.
  destruct d as [j|]; [|done]. cbn [deref] in Hd.
  rewrite map_fmap. apply list_elem_of_fmap_2.
  by apply list_elem_of_lookup_2 with j.
Qed.

(** C5: on the array [chunks] (whatever [dependencies] and [wrapper] its
    objects have got meanwhile), [chunkWrapper] of a chunk whose
    dependencies all lead to chunks returns a text.  For the first chunk
    the text has, after the header that opens the factory function, the
    statement that creates the namespace object, the placeholder for the
    compiled body, and then the statement that publishes the object as
    [Blockly.internal_]; for every other chunk it has in the same places
    the statement that fetches [Blockly.internal_] and an empty postamble,
    and no empty object literal anywhere.  The header creates no object in
    either. *)
Theorem wrapper_root_rule
    (st : store) (i : nat) (c : chunk) (ds : list (option nat)) :
  map declaredFields st = map declaredFields chunks ->
  st !! i = Some c ->
  dependencies c = Some ds ->
  Forall (fun d => is_Some (deref st d)) ds ->
  exists deps w,
    mapM (deref st) ds = Some deps /\
    chunkWrapper st c = Ok w /\
    includes (lit "{}") (wrapperHeader deps c) = false /\
    match i with
    | O =>
        w = wrapperHeader deps c ++
            lit "const $={};" ++ [LF] ++
            lit "%output%" ++ [LF] ++
            lit "$.Blockly.internal_=$;" ++ [LF] ++
            lit "return $.Blockly;" ++ [LF] ++
            lit "}));" ++ [LF]
    | S _ =>
        w = wrapperHeader deps c ++
            lit "const $=Blockly.internal_;" ++ [LF] ++
            lit "%output%" ++ [LF] ++
            [LF] ++
            lit "return $." ++ exports c ++ lit ";" ++ [LF] ++
            lit "}));" ++ [LF] /\
        includes (lit "{}") w = false
    end.
Proof.
  intros Hst Hi Hds Hall.
  destruct (mapM_is_Some_2 (deref st) ds Hall) as [deps Hm].
  exists deps, (wrapperText deps c).
  split; [exact Hm|].
  split; [unfold chunkWrapper; by rewrite Hds, Hm|].
  apply wrapperText_root_rule.
  - by eapply deref_declaredChunk.
  - rewrite <- (list_lookup_fmap declaredFields chunks i), <- map_fmap.
    by rewrite <- Hst, map_fmap, list_lookup_fmap, Hi.
Qed.

(** The wrappers of [blockly], the first chunk, and of [blocks], which
    depends on it, on the array as [getChunkOptions] leaves it. *)
Lemma wrapper_root_rule_witness :
  let raw := {| raw_chunk :=
                  [lit "requires:258"; lit "all:10:requires";
                   lit "all1:11:requires"; lit "all2:11:requires";
                   lit "all3:11:requires"; lit "all4:11:requires";
                   lit "all5:11:requires"];
                raw_js := [] |} in
  let st := snd (getChunkOptions chunks raw) in
  (exists c0 deps w,
     st !! 0 = Some c0 /\
     dependencies c0 = Some [] /\
     chunkWrapper st c0 = Ok w /\
     w = wrapperHeader deps c0 ++
         lit "const $={};" ++ [LF] ++
         lit "%output%" ++ [LF] ++
         lit "$.Blockly.internal_=$;" ++ [LF] ++
         lit "return $.Blockly;" ++ [LF] ++
         lit "}));" ++ [LF]) /\
  (exists c1 deps w,
     st !! 1 = Some c1 /\
     dependencies c1 = Some [Some 0] /\
     chunkWrapper st c1 = Ok w /\
     w = wrapperHeader deps c1 ++
         lit "const $=Blockly.internal_;" ++ [LF] ++
         lit "%output%" ++ [LF] ++
         [LF] ++
         lit "return $." ++ exports c1 ++ lit ";" ++ [LF] ++
         lit "}));" ++ [LF] /\
     includes (lit "{}") w = false).
Proof.
  intros raw st.
  assert (Hst : map declaredFields st = map declaredFields chunks)
    by (vm_compute; reflexivity).
  split.
  - destruct (st !! 0) as [c0|] eqn:E0; [|by vm_compute in E0].
    assert (Hd : dependencies c0 = Some []).
    { revert E0. vm_compute. by intros [= <-]. }
    destruct (wrapper_root_rule st 0 c0 [] Hst E0 Hd (Forall_nil_2 _))
      as (deps & w & _ & Hw & _ & Heq).
    by exists c0, deps, w.
  - destruct (st !! 1) as [c1|] eqn:E1; [|by vm_compute in E1].
    assert (Hd : dependencies c1 = Some [Some 0]).
    { revert E1. vm_compute. by intros [= <-]. }
    assert (Hall : Forall (fun d => is_Some (deref st d)) [Some 0]).
    { apply Forall_cons_2; [|apply Forall_nil_2]. vm_compute. eauto. }
    destruct (wrapper_root_rule st 1 c1 [Some 0] Hst E1 Hd Hall)
      as (deps & w & _ & Hw & _ & Heq & Hno).
    by exists c1, deps, w.
Defined.

(* ===================================================================== *)
(** * Licence stripping and the line count *)
(* ===================================================================== *)

Section Matcher.

Lemma greedy_sound (cs : cset) (k : str -> option str) (res : str) :
  forall s, greedy cs s k = Some res ->
  exists m s', s = m ++ s' /\ Forall (fun c => inSet cs c = true) m /\
               k s' = Some res.
Proof.
  induction s as [|c s IH]; simpl; intros H.
  - by exists [], [].
  - destruct (inSet cs c) eqn:Hc; [|by exists [], (c :: s)].
    destruct (greedy cs s k) as [r|] eqn:Hg; [|by exists [], (c :: s)].
    destruct (IH H) as (m & s' & -> & Hm & Hk).
    exists (c :: m), s'. split; [done|]. split; [by constructor | done].
Qed.

(** What the matcher accepts is a text of the language, followed by a text
    the continuation accepts. *)
Lemma matchRe_sound (r : regex) :
  forall s k res, matchRe r s k = Some res ->
  exists m s', s = m ++ s' /\ lang r m /\ k s' = Some res.
Proof.
  induction r as [|cs|r1 IH1 r2 IH2|r1 IH1 r2 IH2|r1 IH1|cs];
    intros s k res; simpl.
  - intros H. by exists [], s.
  - destruct s as [|c s]; [done|]. destruct (inSet cs c) eqn:Hc; [|done].
    intros H. exists [c], s. eauto.
  - intros (m1 & s1 & -> & H1 & (m2 & s2 & -> & H2 & Hk)%IH2)%IH1.
    exists (m1 ++ m2), s2. rewrite <- app_assoc. eauto 10.
  - destruct (matchRe r1 s k) as [x|] eqn:E1.
    + intros [= <-]. apply IH1 in E1 as (m & s' & -> & H1 & Hk). eauto 10.
    + intros (m & s' & -> & H2 & Hk)%IH2. eauto 10.
  - destruct (matchRe r1 s k) as [x|] eqn:E1.
    + intros [= <-]. apply IH1 in E1 as (m & s' & -> & H1 & Hk). eauto 10.
    + intros H. exists [], s. eauto.
  - destruct s as [|c s]; [done|]. destruct (inSet cs c) eqn:Hc; [|done].
    intros (m & s' & -> & Hm & Hk)%greedy_sound.
    exists (c :: m), s'. split; [done|].
    split; [split; [done | by constructor] | done].
Qed.

Lemma exec_sound (r : regex) (s rest : str) :
  exec r s = Some rest -> exists m, s = m ++ rest /\ lang r m.
Proof.
  intros (m & s' & -> & Hm & [= ->])%matchRe_sound. eauto.
Qed.

Lemma lang_Lit (p m : str) : lang (Lit p) m -> m = p.
Proof.
  revert m. induction p as [|a p IH]; intros m; simpl; [done|].
  intros (m1 & m2 & -> & (c & -> & Hc%Ascii.eqb_eq) & ->%IH). by subst.
Qed.

(** The global replacement, one step at a time. *)
Lemma replaceAll_cons (r : regex) (rep : str) (c : ascii) (s : str) :
  exec r [] = None ->
  replaceAll r rep (c :: s) =
  match exec r (c :: s) with
  | Some rest =>
      match length (c :: s) - length rest with
      | O => rep ++ c :: replaceAll r rep s
      | S n => rep ++ replaceAll r rep (drop n s)
      end
  | None => c :: replaceAll r rep s
  end.
Proof.
  intros Hnil. unfold replaceAll. cbn [replaceFrom].
  destruct (exec r (c :: s)) as [rest|]; [|done].
  destruct (length (c :: s) - length rest); [done|].
  by rewrite replaceFrom_skip.
Qed.

End Matcher.

(* ===================================================================== *)
(** * Licence stripping and the line count *)
(* ===================================================================== *)

Section LicenceSpan.

Lemma lineFeeds_app (x y : str) :
  lineFeeds (x ++ y) = lineFeeds x + lineFeeds y.
Proof. induction x as [|c x IH]; simpl; [done|]. rewrite IH. lia. Qed.

Lemma lineFeeds_digits (d : str) :
  Forall (fun c => inSet CDigit c = true) d -> lineFeeds d = 0.
Proof.
  induction 1 as [|c d Hc _ IH]; [done|]. simpl. rewrite IH.
  destruct (Ascii.eqb c LF) eqn:E; [|done].
  apply Ascii.eqb_eq in E as ->. by vm_compute in Hc.
Qed.

Lemma lineFeeds_dot (c : ascii) : inSet CDot c = true -> lineFeeds [c] = 0.
Proof.
  simpl. intros [H _]%negb_true_iff%orb_false_iff. by rewrite H.
Qed.

Lemma includes_app_l (p x y : str) :
  includes p x = true -> includes p (x ++ y) = true.
Proof.
  rewrite !includes_spec. intros (u & v & ->). exists u, (v ++ y).
  by rewrite <- !app_assoc.
Qed.

Lemma includes_app_r (p x y : str) :
  includes p y = true -> includes p (x ++ y) = true.
Proof.
  rewrite !includes_spec. intros (u & v & ->). exists (x ++ u), v.
  by rewrite <- !app_assoc.
Qed.

(** A header the pattern matches spans four line feeds, or five when the
    optional line is part of it. *)
Lemma license_span (m : str) :
  lang licenseRegex m ->
  lineFeeds m = 4 \/
  (lineFeeds m = 5 /\ includes ALL_RIGHTS_RESERVED m = true).
Proof.
  unfold licenseRegex, NL, Text. cbn [Cat lang].
  intros (m1 & ? & -> & ->%lang_Lit & c1 & ? & -> & (? & -> & Hc1) &
          m2 & ? & -> & ->%lang_Lit & c2 & ? & -> & (? & -> & Hc2) &
          m3 & ? & -> & ->%lang_Lit &
          holder & ? & -> &
            (m4 & ? & -> & ->%lang_Lit & d & ? & -> & [_ Hd] &
             m5 & ? & -> & ->%lang_Lit & h & ? & -> & Hh & ->) &
          c3 & ? & -> & (? & -> & Hc3) &
          opt & ? & -> & Hopt &
          m6 & ? & -> & ->%lang_Lit & c4 & ? & -> & (? & -> & Hc4) &
          m7 & ? & -> & ->%lang_Lit & c5 & ? & -> & (? & -> & Hc5) &
          m8 & ? & -> & ->%lang_Lit & ->).
  apply Ascii.eqb_eq in Hc1 as <-, Hc2 as <-, Hc3 as <-, Hc5 as <-.
  assert (Hh' : lineFeeds h = 0).
  { destruct Hh as [->%lang_Lit | ->%lang_Lit]; by vm_compute. }
  pose proof (lineFeeds_digits d Hd) as Hd'.
  pose proof (lineFeeds_dot _ Hc4) as Hc4'.
  destruct Hopt as [-> | (o1 & ? & -> & ->%lang_Lit & o2 & ? & -> &
                          (? & -> & Ho2) & o3 & ? & -> & (? & -> & Ho3) & ->)].
  - left. rewrite !lineFeeds_app, Hh', Hd', Hc4'. by vm_compute.
  - apply Ascii.eqb_eq in Ho3 as <-.
    pose proof (lineFeeds_dot _ Ho2) as Ho2'.
    right. split.
    + rewrite !lineFeeds_app, Hh', Hd', Hc4', Ho2'. by vm_compute.
    + do 7 apply includes_app_r. apply includes_app_l, includes_app_l.
      apply includes_spec. by exists [], [].
Qed.

Lemma license_not_empty : exec licenseRegex [] = None.
Proof. done. Qed.

(** The licence stripper never adds a line, and it keeps the number of
    lines of a text in which the optional line does not occur. *)
Lemma strip_lineFeeds (n : nat) : forall text,
  length text <= n ->
  lineFeeds (stripApacheLicense text) <= lineFeeds text /\
  (includes ALL_RIGHTS_RESERVED text = false ->
   lineFeeds (stripApacheLicense text) = lineFeeds text).
Proof.
  unfold stripApacheLicense.
  induction n as [|n IH]; intros [|c s] Hlen; simpl in Hlen;
    [done | lia | done |].
  rewrite replaceAll_cons by apply license_not_empty.
  destruct (exec licenseRegex (c :: s)) as [rest|] eqn:E.
  - apply exec_sound in E as (m & Hm & Hspan%license_span).
    assert (Hlm : length (c :: s) = length m + length rest)
      by (by rewrite Hm, length_app).
    destruct m as [|c' m]; [by destruct Hspan as [? | [? _]]|].
    injection Hm as <- ->. cbn [length] in Hlm.
    replace (length (c :: m ++ rest) - length rest) with (S (length m))
      by (cbn [length]; lia).
    rewrite drop_app_length.
    destruct (IH rest) as [Hle Heq]; [rewrite length_app in Hlen; lia|].
    change (c :: m ++ rest) with ((c :: m) ++ rest).
    rewrite !lineFeeds_app. change (lineFeeds [LF; LF; LF; LF]) with 4.
    split; [destruct Hspan as [-> | [-> _]]; lia|].
    intros Hinc.
    destruct Hspan as [-> | [_ Hin]].
    + rewrite Heq; [done|].
      destruct (includes ALL_RIGHTS_RESERVED rest) eqn:Er; [|done].
      by rewrite (includes_app_r _ (c :: m) rest Er) in Hinc.
    + by rewrite (includes_app_l _ (c :: m) rest Hin) in Hinc.
  - destruct (IH s) as [Hle Heq]; [lia|]. cbn [lineFeeds].
    split; [lia|]. intros [_ Hinc]%includes_cons. rewrite Heq; done.
Qed.

End LicenceSpan.

(** The number of lines never grows, and it is preserved on every text
    without the optional line, whatever the number of headers. *)
Lemma strip_preserves_without_optional_line (text : str) :
  lineCount (stripApacheLicense text) <= lineCount text /\
  (includes ALL_RIGHTS_RESERVED text = false ->
   lineCount (stripApacheLicense text) = lineCount text).
Proof.
  unfold lineCount.
  destruct (strip_lineFeeds (length text) text) as [Hle Heq]; [done|].
  split; [lia|]. intros H. by rewrite Heq.
Qed.

(** A header without the optional line spans four line feeds and is replaced
    by four. *)
Example strip_plain_header :
  let text := lines [ lit "/**"; lit " * @license";
                      lit " * Copyright 2018 Google LLC";
                      lit " * SPDX-License-Identifier: Apache-2.0";
                      lit " */"; lit "'use strict';" ] in
  stripApacheLicense text = lines [ []; []; []; []; []; lit "'use strict';" ] /\
  lineCount (stripApacheLicense text) = lineCount text.
Proof. vm_compute. split; reflexivity. Qed.

(** A near match is left alone. *)
Example strip_near_match :
  let text := lines [ lit "/**"; lit " * @license";
                      lit " * Copyright 2018 Example Corp";
                      lit " * SPDX-License-Identifier: Apache-2.0";
                      lit " */" ] in
  stripApacheLicense text = text.
Proof. by vm_compute. Qed.

(** C1 fails on the code: a header with the optional line
    "All rights reserved." spans five line feeds, the replacement has four,
    and the text loses a line. *)
Theorem strip_all_rights_reserved_drops_a_line :
  let text := lines [ lit "/**"; lit " * @license";
                      lit " * Copyright 2016 Massachusetts Institute of Technology";
                      lit " * All rights reserved.";
                      lit " * SPDX-License-Identifier: Apache-2.0";
                      lit " */"; lit "'use strict';" ] in
  lineCount text = 7 /\
  stripApacheLicense text = lines [ []; []; []; []; []; lit "'use strict';" ] /\
  lineCount (stripApacheLicense text) = 6.
Proof. vm_compute. repeat split; reflexivity. Qed.

(* ===================================================================== *)
(** * Further properties of the licence stripper *)
(* ===================================================================== *)

Section LicenceMatches.

(** Every header the pattern matches opens with the two lines of the
    [@license] marker. *)
Lemma license_head (m : str) :
  lang licenseRegex m ->
  exists t, m = lit "/**" ++ [LF] ++ lit " * @license" ++ [LF] ++ t.
Proof.
  unfold licenseRegex, NL, Text. cbn [Cat lang].
  intros (m1 & ? & -> & ->%lang_Lit & c1 & ? & -> & (? & -> & Hc1) &
          m2 & ? & -> & ->%lang_Lit & c2 & t & -> & (? & -> & Hc2) & _).
  apply Ascii.eqb_eq in Hc1 as <-, Hc2 as <-. by exists t.
Qed.

Lemma license_marker (s rest : str) :
  exec licenseRegex s = Some rest -> includes (lit "@license") s = true.
Proof.
  intros (m & -> & (t & ->)%license_head)%exec_sound.
  apply includes_app_l, includes_spec.
  by exists (lit "/**" ++ [LF] ++ lit " * "), ([LF] ++ t).
Qed.

End LicenceMatches.

(** X1: the licence stripper never adds a line, and it keeps the number of
    lines of every text in which the optional line " * All rights reserved"
    does not occur, whatever the number of headers in the text. *)
Theorem strip_keeps_lines_without_optional_line (text : str) :
  lineCount (stripApacheLicense text) <= lineCount text /\
  (includes ALL_RIGHTS_RESERVED text = false ->
   lineCount (stripApacheLicense text) = lineCount text).
Proof.
  unfold lineCount.
  destruct (strip_lineFeeds (length text) text) as [Hle Heq]; [done|].
  split; [lia|]. intros H. by rewrite Heq.
Qed.

(** The header of blockly's own files, followed by code. *)
Lemma strip_keeps_lines_without_optional_line_witness :
  let text := lines [ lit "/**"; lit " * @license";
                      lit " * Copyright 2018 Google LLC";
                      lit " * SPDX-License-Identifier: Apache-2.0";
                      lit " */"; lit "'use strict';" ] in
  includes ALL_RIGHTS_RESERVED text = false /\
  lineCount (stripApacheLicense text) = lineCount text.
Proof.
  intros text. split; [by vm_compute|].
  apply (proj2 (strip_keeps_lines_without_optional_line text)).
  by vm_compute.
Defined.

(** X2: a text in which the marker [@license] does not occur is returned
    as it is. *)
Theorem strip_without_marker (text : str) :
  includes (lit "@license") text = false -> stripApacheLicense text = text.
Proof.
  unfold stripApacheLicense.
  induction text as [|c s IH]; [done|]. intros Hinc.
  rewrite replaceAll_cons by apply license_not_empty.
  destruct (exec licenseRegex (c :: s)) as [rest|] eqn:E.
  - apply license_marker in E. congruence.
  - apply includes_cons in Hinc as [_ Hinc]. by rewrite IH.
Qed.

Lemma strip_without_marker_witness :
  stripApacheLicense (lines [lit "/** @fileoverview x */"; lit "var a = 1;"])
  = lines [lit "/** @fileoverview x */"; lit "var a = 1;"].
Proof. apply strip_without_marker. by vm_compute. Defined.

(** X3: where the pattern matches at the head of a text, the matched block
    spans four line feeds, or five and then holds the optional line; the
    stripper puts four line feeds in its place and goes on with the text
    after the block. *)
Theorem strip_at_match (s rest : str) :
  exec licenseRegex s = Some rest ->
  stripApacheLicense s = [LF; LF; LF; LF] ++ stripApacheLicense rest /\
  exists m, s = m ++ rest /\
    (lineFeeds m = 4 \/
     (lineFeeds m = 5 /\ includes ALL_RIGHTS_RESERVED m = true)).
Proof.
  intros E. pose proof E as (m & Hm & Hspan%license_span)%exec_sound.
  split; [|by exists m].
  destruct m as [|c m]; [by destruct Hspan as [? | [? _]]|].
  subst s. unfold stripApacheLicense.
  change ((c :: m) ++ rest) with (c :: (m ++ rest)) in *.
  rewrite replaceAll_cons by apply license_not_empty. rewrite E.
  replace (length (c :: m ++ rest) - length rest) with (S (length m))
    by (cbn [length]; rewrite length_app; lia).
  by rewrite drop_app_length.
Qed.

Lemma strip_at_match_witness :
  let header := lines [ lit "/**"; lit " * @license";
                        lit " * Copyright 2011 Google LLC";
                        lit " * All rights reserved.";
                        lit " * SPDX-License-Identifier: Apache-2.0";
                        lit " */" ] in
  stripApacheLicense (header ++ lit ";") = [LF; LF; LF; LF] ++ lit ";".
Proof.
  intros header.
  exact (proj1 (strip_at_match (header ++ lit ";") (lit ";") eq_refl)).
Defined.

(* ===================================================================== *)
(** * Further properties of the path transform *)
(* ===================================================================== *)

Section PathExtras.

Variable pf : platform.

(** The reverse transform, one step at a time. *)
Lemma unflatten_cons (c : ascii) (s : str) :
  (exists t, c :: s = SLASH_TOKEN ++ t /\
     unflattenCorePaths pf (c :: s) = path_sep pf :: unflattenCorePaths pf t) \/
  (startsWith SLASH_TOKEN (c :: s) = false /\
   unflattenCorePaths pf (c :: s) = c :: unflattenCorePaths pf s).
Proof.
  destruct (startsWith SLASH_TOKEN (c :: s)) eqn:E.
  - left. apply startsWith_spec in E as [t Ht]. exists t.
    split; [done|]. rewrite Ht. apply unflatten_token.
  - right. split; [done|]. by apply unflatten_other.
Qed.

(** A character of the token at the head of the result was at the head of
    the text. *)
Lemma unflatten_head (x : ascii) (s r : str) :
  unflattenCorePaths pf s = x :: r -> x <> path_sep pf ->
  exists s', s = x :: s' /\ unflattenCorePaths pf s' = r /\
             startsWith SLASH_TOKEN s = false.
Proof.
  destruct s as [|c s]; [done|]. intros H Hx.
  destruct (unflatten_cons c s) as [(t & _ & Ht) | [Hno Hc]].
  - rewrite Ht in H. injection H as <- _. done.
  - rewrite Hc in H. injection H as <- <-. eauto.
Qed.

Lemma unflatten_no_token_head (s : str) :
  startsWith SLASH_TOKEN (unflattenCorePaths pf s) = false.
Proof.
  destruct (startsWith _ _) eqn:E; [|done]. exfalso.
  apply startsWith_spec in E as [r Hr].
  unfold SLASH_TOKEN, lit in Hr. simpl in Hr.
  apply unflatten_head in Hr as (s1 & -> & Hr & Hno); [|by destruct pf].
  apply unflatten_head in Hr as (s2 & -> & Hr & _); [|by destruct pf].
  apply unflatten_head in Hr as (s3 & -> & Hr & _); [|by destruct pf].
  apply unflatten_head in Hr as (s4 & -> & Hr & _); [|by destruct pf].
  apply unflatten_head in Hr as (s5 & -> & Hr & _); [|by destruct pf].
  apply unflatten_head in Hr as (s6 & -> & Hr & _); [|by destruct pf].
  apply unflatten_head in Hr as (s7 & -> & Hr & _); [|by destruct pf].
  by vm_compute in Hno.
Qed.

Lemma unflatten_no_token (n : nat) : forall s,
  length s <= n -> includes SLASH_TOKEN (unflattenCorePaths pf s) = false.
Proof.
  induction n as [|n IH]; intros [|c s] Hlen; simpl in Hlen;
    [done | lia | done |].
  pose proof (unflatten_no_token_head (c :: s)) as Hhead.
  destruct (unflatten_cons c s) as [(t & Ht & Hc) | [_ Hc]];
    rewrite Hc in *; cbn [includes]; rewrite Hhead, orb_false_l; apply IH.
  - apply (f_equal length) in Ht. rewrite length_app in Ht.
    simpl in Ht. lia.
  - lia.
Qed.

(** The pieces of a split hold no separator. *)
Lemma split_no_sep (sep : ascii) (s : str) :
  Forall (fun x => sep ∉ x) (split sep s).
Proof.
  induction s as [|c s IH]; simpl.
  - repeat constructor. apply not_elem_of_nil.
  - destruct (Ascii.eqb c sep) eqn:E.
    + constructor; [apply not_elem_of_nil | done].
    + destruct (split sep s) as [|h t]; [repeat constructor|].
      * intros [->|?%elem_of_nil]%elem_of_cons; [|done].
        by rewrite Ascii.eqb_refl in E.
      * apply Forall_cons in IH as [Hh Ht]. constructor; [|done].
        intros [->|?]%elem_of_cons; [|done].
        by rewrite Ascii.eqb_refl in E.
Qed.

Lemma join_no_sep (sep : ascii) (tok : str) (l : list str) :
  sep ∉ tok -> Forall (fun x => sep ∉ x) l -> sep ∉ join tok l.
Proof.
  intros Htok Hl. induction Hl as [|x l Hx Hl IH]; [apply not_elem_of_nil|].
  destruct l as [|y l]; [done|]. rewrite join_cons.
  rewrite !elem_of_app. intros [?|[?|?]]; auto.
Qed.

(** The round trip, for use below. *)
Lemma roundtrip_core (p : pathObject) (segs : list str) :
  split (path_sep pf) (dirname p) = CORE :: segs ->
  Forall (fun seg => cleanSegment seg = true) segs ->
  includes SLASH_TOKEN (basename p ++ extname p) = false ->
  unflattenCorePaths pf (pathString pf (flattenCorePaths pf p))
    = pathString pf p.
Proof.
  intros Hsplit Hsegs Hfile.
  unfold flattenCorePaths. rewrite Hsplit.
  replace (str_eqb CORE CORE) with true by done.
  unfold pathString. cbn [dirname basename extname].
  rewrite join_snoc_app. cbn [app].
  rewrite unflatten_core_prefix, unflatten_join by done.
  rewrite <- (join_split (path_sep pf) (dirname p)), Hsplit.
  change (path_sep pf :: basename p ++ extname p)
    with ([path_sep pf] ++ (basename p ++ extname p)).
  rewrite <- join_snoc.
  change ((CORE :: segs) ++ [basename p ++ extname p])
    with (CORE :: (segs ++ [basename p ++ extname p])).
  destruct (segs ++ [basename p ++ extname p]) as [|y l] eqn:E;
    [by destruct segs|].
  by rewrite join_cons.
Qed.

End PathExtras.

(** X4: the result of the reverse transform holds no token, so that
    applying it a second time changes nothing. *)
Theorem unflatten_idempotent (pf : platform) (s : str) :
  includes SLASH_TOKEN (unflattenCorePaths pf s) = false /\
  unflattenCorePaths pf (unflattenCorePaths pf s) = unflattenCorePaths pf s.
Proof.
  pose proof (unflatten_no_token pf (length s) s (le_n _)) as H.
  split; [done|]. by apply unflatten_tokenFree.
Qed.

(** X5: two paths below core/ with clean directory segments and file names
    without the token that are flattened to the same path string are the
    same path: the flat names of distinct files do not collide. *)
Theorem flatten_no_collision
    (pf : platform) (p q : pathObject) (segsp segsq : list str) :
  split (path_sep pf) (dirname p) = CORE :: segsp ->
  split (path_sep pf) (dirname q) = CORE :: segsq ->
  Forall (fun seg => cleanSegment seg = true) segsp ->
  Forall (fun seg => cleanSegment seg = true) segsq ->
  includes SLASH_TOKEN (basename p ++ extname p) = false ->
  includes SLASH_TOKEN (basename q ++ extname q) = false ->
  pathString pf (flattenCorePaths pf p) = pathString pf (flattenCorePaths pf q) ->
  pathString pf p = pathString pf q.
Proof.
  intros Hp Hq Hsp Hsq Hfp Hfq Heq.
  rewrite <- (roundtrip_core pf p segsp), <- (roundtrip_core pf q segsq)
    by done.
  by rewrite Heq.
Qed.

(** Two path objects that split core/a/b.js differently. *)
Lemma flatten_no_collision_witness :
  let p := {| dirname := lit "core/a"; basename := lit "b";
              extname := lit ".js" |} in
  let q := {| dirname := lit "core/a"; basename := lit "b.js";
              extname := [] |} in
  pathString posix (flattenCorePaths posix p)
    = pathString posix (flattenCorePaths posix q) /\
  pathString posix p = pathString posix q.
Proof.
  intros p q. split; [reflexivity|].
  apply (flatten_no_collision posix p q [lit "a"] [lit "a"]);
    try reflexivity; repeat constructor.
Defined.

(** X6: a file below core/ is moved into core/ itself: after the forward
    transform the directory is core, and the base name holds no path
    separator when the original base name held none. *)
Theorem flatten_into_core (pf : platform) (p : pathObject) :
  head (split (path_sep pf) (dirname p)) = Some CORE ->
  path_sep pf ∉ basename p ->
  dirname (flattenCorePaths pf p) = CORE /\
  path_sep pf ∉ basename (flattenCorePaths pf p).
Proof.
  intros Hhead Hbase. unfold flattenCorePaths.
  pose proof (split_no_sep (path_sep pf) (dirname p)) as Hsegs.
  destruct (split (path_sep pf) (dirname p)) as [|d0 rest]; [done|].
  injection Hhead as ->. replace (str_eqb CORE CORE) with true by done.
  cbn [dirname basename]. split; [done|].
  apply Forall_cons in Hsegs as [_ Hrest].
  apply join_no_sep.
  - destruct pf; vm_compute; intros H;
      repeat (apply elem_of_cons in H as [H|H]; [discriminate|]);
      by apply elem_of_nil in H.
  - apply Forall_app. split; [done|]. by repeat constructor.
Qed.

Lemma flatten_into_core_witness :
  let p := {| dirname := lit "core/events/ui"; basename := lit "click";
              extname := lit ".js" |} in
  dirname (flattenCorePaths posix p) = CORE /\
  path_sep posix ∉ basename (flattenCorePaths posix p).
Proof.
  intros p. apply flatten_into_core; [reflexivity|].
  vm_compute. intros H.
  repeat (apply elem_of_cons in H as [H|H]; [discriminate|]).
  by apply elem_of_nil in H.
Defined.

(* ===================================================================== *)
(** * Further properties of getChunkOptions *)
(* ===================================================================== *)

Section Declared.

Implicit Types (st : store) (env : nicknames) (c : chunk).

Lemma declared_lookup st st' j :
  map declaredFields st' = map declaredFields st ->
  declaredFields <$> st' !! j = declaredFields <$> st !! j.
Proof.
  intros H. rewrite !map_fmap in H.
  by rewrite <- !list_lookup_fmap, H.
Qed.

Lemma declared_deref st st' d :
  map declaredFields st' = map declaredFields st ->
  declaredFields <$> deref st' d = declaredFields <$> deref st d.
Proof. intros H. destruct d as [j|]; [by apply declared_lookup | done]. Qed.

(** Following the same references in two stores with the same declared
    fields gives chunks with the same declared fields. *)
Lemma declared_mapM st st' (ds : list (option nat)) :
  map declaredFields st' = map declaredFields st ->
  match mapM (deref st) ds, mapM (deref st') ds with
  | Some a, Some b => map declaredFields b = map declaredFields a
  | None, None => True
  | _, _ => False
  end.
Proof.
  intros H. induction ds as [|d ds IH]; [done|]. simpl.
  pose proof (declared_deref st st' d H) as Hd.
  destruct (deref st d) as [x|], (deref st' d) as [y|]; try done; simpl.
  destruct (mapM (deref st) ds) as [a|], (mapM (deref st') ds) as [b|];
    try done; simpl.
  apply (inj Some) in Hd. cbn [map]. f_equal; [exact Hd | exact IH].
Qed.

Lemma map_declared {B} (f : chunk -> B) (a b : list chunk) :
  (forall x y, declaredFields x = declaredFields y -> f x = f y) ->
  map declaredFields b = map declaredFields a -> map f b = map f a.
Proof.
  intros Hf. revert b. induction a as [|x a IH]; intros [|y b]; try done.
  cbn [map]. intros [Hxy Hab]%(inj2 cons). by rewrite (Hf y x Hxy), IH.
Qed.

(** The wrapper reads the declared fields only. *)
Lemma wrapperText_declared (a b : list chunk) c c' :
  map declaredFields b = map declaredFields a ->
  declaredFields c' = declaredFields c ->
  wrapperText b c' = wrapperText a c.
Proof.
  intros Hab Hc. unfold wrapperText, wrapperHeader.
  injection Hc as _ _ -> _ -> ->.
  rewrite (map_declared (fun d => JSON_stringify
             (lit "./" ++ name d ++ COMPILED_SUFFIX ++ lit ".js")) a b),
          (map_declared (fun d => lit "root." ++ exports d) a b),
          (map_declared (fun d => joined (importAs d)) a b);
    try done; intros x y [= ? ? ? ? ? ?]; congruence.
Qed.

Lemma chunkWrapper_declared st st' c c' :
  map declaredFields st' = map declaredFields st ->
  declaredFields c' = declaredFields c ->
  dependencies c' = dependencies c ->
  chunkWrapper st' c' = chunkWrapper st c.
Proof.
  intros Hst Hc Hd. unfold chunkWrapper. rewrite Hd.
  destruct (dependencies c) as [ds|]; [|done].
  pose proof (declared_mapM st st' ds Hst) as Hm.
  destruct (mapM (deref st) ds) as [a|], (mapM (deref st') ds) as [b|];
    try done.
  by rewrite (wrapperText_declared a b c c').
Qed.

(** The names behind a list of references. *)
Lemma names_mapM st (ds : list (option nat)) (deps : list chunk) :
  mapM (deref st) ds = Some deps ->
  mapM (fun d => name <$> deref st d) ds = Some (map name deps).
Proof.
  revert deps. induction ds as [|d ds IH]; intros deps; simpl.
  - by intros [= <-].
  - destruct (deref st d) as [x|]; [|done]. simpl.
    destruct (mapM (deref st) ds) as [a|]; [|done]. simpl.
    intros [= <-]. by rewrite (IH a eq_refl).
Qed.

Lemma names_declared st st' (ds : list (option nat)) :
  map declaredFields st' = map declaredFields st ->
  mapM (fun d => name <$> deref st' d) ds
  = mapM (fun d => name <$> deref st d) ds.
Proof.
  intros H. apply mapM_ext. intros d.
  pose proof (declared_deref st st' d H) as Hd.
  destruct (deref st d) as [x|], (deref st' d) as [y|]; try done.
  apply (inj Some) in Hd. simpl. f_equal. by injection Hd.
Qed.

End Declared.

Section Outputs.

Implicit Types (st : store) (env : nicknames) (c : chunk).

(** What a successful callback returns and writes. *)
Lemma mapCallback_string env st element i s env1 st1 :
  mapCallback env st element i = (Ok (s, env1), st1) ->
  exists c deps,
    st !! i = Some c /\
    let ds := map (fun nick => env1 !! nick) (dependencyNicksOf element) in
    st1 = <[i := set_dependencies c ds]> st /\
    mapM (deref st1) ds = Some deps /\
    s = renamedDescriptor c element (map name deps).
Proof.
  unfold mapCallback, renamedDescriptor, dependencyNicksOf.
  destruct (st !! i) as [c|]; [|done].
  destruct (split ":" element !! 2) as [[|a dn]|]; cbn beta iota zeta.
  - intros [= <- <- <-]. exists c, []. by rewrite app_nil_r.
  - generalize (split_nonempty "," (a :: dn)).
    generalize (split "," (a :: dn)). intros [|x nicks] Hne; [done|].
    destruct (mapM _ _) as [deps|] eqn:Hm; [|done].
    intros [= <- <- <-]. by exists c, deps.
  - intros [= <- <- <-]. exists c, []. by rewrite app_nil_r.
Qed.

(** On success the strings returned are the descriptors with the names of
    the chunks in place of the nicknames. *)
Lemma mapChunks_strings elements : forall env st i l st',
  mapChunks env st i elements = (Ok l, st') ->
  length l = length elements /\
  forall k element, elements !! k = Some element ->
    exists c ds names,
      st' !! (i + k) = Some c /\ dependencies c = Some ds /\
      mapM (fun d => name <$> deref st' d) ds = Some names /\
      l !! k = Some (renamedDescriptor c element names).
Proof.
  induction elements as [|element rest IH]; intros env st i l st'; simpl.
  - intros [= <- <-]. split; [done|]. intros k e Hk.
    by rewrite lookup_nil in Hk.
  - destruct (mapCallback env st element i) as [[[s env1]|e] st1] eqn:E1;
      [|done].
    destruct (mapChunks env1 st1 (S i) rest) as [[l2|e] st2] eqn:E2; [|done].
    intros [= <- <-].
    destruct (IH _ _ _ _ _ E2) as [Hlen Hrest].
    split; [simpl; by rewrite Hlen|].
    apply mapCallback_string in E1 as (c & deps & Hc & Hst1 & Hm & ->).
    cbv zeta in Hst1, Hm.
    pose proof (mapChunks_frame _ _ _ _ _ _ E2) as [Hd Hf].
    intros [|k] el Hk.
    + injection Hk as ->. rewrite Nat.add_0_r.
      eexists (set_dependencies c _), _, (map name deps).
      split; [|split; [done|split; [|done]]].
      * rewrite Hf by lia. rewrite Hst1.
        apply list_lookup_insert_eq. by eapply lookup_lt_Some.
      * rewrite (names_declared st1 st2 _ Hd). by apply names_mapM.
    + replace (i + S k) with (S i + k) by lia. by apply Hrest.
Qed.

(** Wrapper generation leaves the chunks outside its positions alone. *)
Lemma wrapEach_other indices : forall st r st' j,
  wrapEach indices st = (r, st') -> j ∉ indices -> st' !! j = st !! j.
Proof.
  induction indices as [|i rest IH]; intros st r st' j; simpl.
  - by intros [= <- <-].
  - intros H [Hne Hj]%not_elem_of_cons.
    destruct (st !! i) as [c|] eqn:Hi; [|by injection H as <- <-].
    destruct (chunkWrapper st c) as [w|e]; [|by injection H as <- <-].
    rewrite (IH _ _ _ _ H Hj). by apply list_lookup_insert_ne.
Qed.

(** After a successful wrapper generation every chunk at one of its
    positions carries the wrapper [chunkWrapper] computes for it. *)
Lemma wrapEach_wrapped indices : forall st u st',
  wrapEach indices st = (Ok u, st') ->
  NoDup indices -> Forall (fun i => i < length st) indices ->
  forall i, i ∈ indices ->
    exists c w, st' !! i = Some c /\ chunkWrapper st' c = Ok w /\
                wrapper c = Some w.
Proof.
  induction indices as [|i0 rest IH]; intros st u st' Hrun Hnd Hvalid i Hin.
  - by apply elem_of_nil in Hin.
  - apply NoDup_cons in Hnd as [Hfresh Hnd].
    apply Forall_cons in Hvalid as [Hi0 Hvalid].
    simpl in Hrun.
    destruct (lookup_lt_is_Some_2 st i0 Hi0) as [c0 Hc0].
    rewrite Hc0 in Hrun.
    destruct (chunkWrapper st c0) as [w0|e] eqn:Hw; [|done].
    pose proof (wrapEach_frame _ _ _ _ Hrun) as [Hd _].
    apply elem_of_cons in Hin as [-> | Hin].
    + exists (set_wrapper c0 w0), w0.
      split; [|split; [|done]].
      * rewrite (wrapEach_other _ _ _ _ _ Hrun Hfresh).
        by apply list_lookup_insert_eq.
      * rewrite <- Hw. apply chunkWrapper_declared; [|done..].
        rewrite Hd. by apply map_insert_same with c0.
    + apply (IH _ _ _ Hrun); [done | | done].
      by rewrite length_insert.
Qed.

Lemma getChunkOptions_wrapped st raw out st' :
  getChunkOptions st raw = (Ok out, st') -> wrapped st'.
Proof.
  unfold getChunkOptions.
  destruct (mapChunks ∅ st 0 (raw_chunk raw)) as [[l|e] st1]; [|done].
  destruct (wrapEach (seq 0 (length st1)) st1) as [[u|e] st2] eqn:E2;
    [|done].
  intros [= _ <-] i c Hi.
  pose proof (wrapEach_frame _ _ _ _ E2) as [Hd _].
  apply (f_equal length) in Hd. rewrite !length_map in Hd.
  destruct (wrapEach_wrapped _ _ _ _ E2 (NoDup_seq 0 _)) with (i := i)
    as (c' & w & Hc' & Hw & Hwr).
  - apply Forall_forall. intros j Hj%elem_of_seq. lia.
  - apply elem_of_seq. apply lookup_lt_Some in Hi. lia.
  - exists w. by replace c with c' by congruence.
Qed.

End Outputs.

Lemma getChunkOptions_keeps_length (st : store) (raw : rawOptions) :
  length (snd (getChunkOptions st raw)) = length st.
Proof.
  unfold getChunkOptions.
  destruct (mapChunks ∅ st 0 (raw_chunk raw)) as [[l|e] st1] eqn:E1;
    apply mapChunks_frame, frame_length in E1; [|done].
  destruct (wrapEach (seq 0 (length st1)) st1) as [[u|e] st2] eqn:E2;
    apply wrapEach_frame in E2 as [Hd _]; apply (f_equal length) in Hd;
    rewrite !length_map in Hd; simpl; congruence.
Qed.

Section Rerun.

Implicit Types (st : store) (env : nicknames) (c : chunk).

Lemma set_dependencies_same c ds :
  dependencies c = Some ds -> set_dependencies c ds = c.
Proof. destruct c. simpl. by intros ->. Qed.

Lemma set_wrapper_same c w : wrapper c = Some w -> set_wrapper c w = c.
Proof. destruct c. simpl. by intros ->. Qed.

(** Running the descriptors again on a store that already holds what their
    first run wrote returns the same strings and changes nothing. *)
Lemma mapChunks_rerun elements : forall env st i l st0 F,
  mapChunks env st i elements = (Ok l, st0) ->
  map declaredFields F = map declaredFields st ->
  (forall j, i <= j < i + length elements ->
     dependencies <$> F !! j = dependencies <$> st0 !! j) ->
  mapChunks env F i elements = (Ok l, F).
Proof.
  induction elements as [|element rest IH]; intros env st i l st0 F; simpl.
  - by intros [= <- <-].
  - destruct (mapCallback env st element i) as [[[s env1]|e] st1] eqn:E1;
      [|done].
    destruct (mapChunks env1 st1 (S i) rest) as [[l2|e] st2] eqn:E2; [|done].
    intros [= <- <-] HF Hdeps.
    pose proof (mapCallback_frame _ _ _ _ _ _ E1) as [Hd1 _].
    pose proof (mapChunks_frame _ _ _ _ _ _ E2) as [_ Hf2].
    pose proof E1 as (c & Hc & -> & Hst1 & _)%mapCallback_Ok.
    apply mapCallback_string in E1 as (c' & deps & Hc' & _ & Hm & ->).
    cbv zeta in Hst1, Hm. replace c' with c in * by congruence. clear Hc'.
    set (ds := map (fun nick => <[nicknameOf element := i]> env !! nick)
                   (dependencyNicksOf element)) in *.
    assert (HFi : exists cF, F !! i = Some cF /\ dependencies cF = Some ds /\
                             declaredFields cF = declaredFields c).
    { specialize (Hdeps i ltac:(lia)). rewrite Hf2 in Hdeps by lia.
      rewrite Hst1 in Hdeps.
      rewrite list_lookup_insert_eq in Hdeps by (by eapply lookup_lt_Some).
      pose proof (declared_lookup st F i HF) as Hdl. rewrite Hc in Hdl.
      destruct (F !! i) as [cF|]; [|done]. exists cF.
      split; [done|]. split; [by injection Hdeps | by apply (inj Some)]. }
    destruct HFi as (cF & HcF & HdF & HnF).
    pose proof (mapCallback_spec env F element i) as Hs.
    rewrite HcF in Hs. cbv zeta in Hs. fold ds in Hs.
    rewrite (set_dependencies_same cF ds HdF) in Hs.
    rewrite (list_insert_id F i cF HcF) in Hs.
    assert (HF1 : map declaredFields F = map declaredFields st1)
      by congruence.
    pose proof (declared_mapM st1 F ds HF1) as Hmm. rewrite Hm in Hmm.
    destruct (mapM (deref F) ds) as [depsF|] eqn:HmF; [|done].
    destruct Hs as [s Hs].
    pose proof Hs as (c2 & deps2 & Hc2 & _ & Hm2 & ->)%mapCallback_string.
    cbv zeta in Hm2.
    assert (deps2 = depsF) as -> by (unfold ds in HmF; congruence).
    rewrite Hs, (IH _ _ _ _ _ _ E2 HF1).
    + do 3 f_equal. unfold renamedDescriptor.
      replace (name c2) with (name c)
        by (replace c2 with cF by congruence; by injection HnF).
      rewrite (map_declared name deps depsF); [done | | done].
      by intros x y [= -> _ _ _ _ _].
    + intros j Hj. apply Hdeps. lia.
Qed.

(** Wrapper generation changes nothing on a store whose chunks carry their
    wrappers. *)
Lemma wrapEach_rerun st : wrapped st ->
  forall indices, wrapEach indices st = (Ok tt, st).
Proof.
  intros Hw. induction indices as [|i rest IH]; [done|]. simpl.
  destruct (st !! i) as [c|] eqn:Hc; [|done].
  destruct (Hw i c Hc) as (w & -> & Hwr).
  by rewrite (set_wrapper_same c w Hwr), (list_insert_id st i c Hc).
Qed.

End Rerun.

Section Bindings.

Implicit Types (st : store) (env : nicknames) (c : chunk).

(** A list of references none of which is [undefined]. *)
Lemma all_Some_map {A} (ds : list (option A)) :
  Forall is_Some ds -> exists idx, ds = map Some idx.
Proof.
  induction 1 as [|d ds [j ->] _ [idx ->]]; [by exists []|].
  by exists (j :: idx).
Qed.

(** Binding the nickname of the descriptor at position [i] keeps the
    dictionary in step with the descriptors read so far. *)
Lemma lastBound_insert (all : list str) env i element :
  all !! i = Some element ->
  (forall nick j, env !! nick = Some j -> lastBound all i nick j) ->
  forall nick j, <[nicknameOf element := i]> env !! nick = Some j ->
    lastBound all (S i) nick j.
Proof.
  intros Hi Hinv nick j Hj.
  destruct (decide (nicknameOf element = nick)) as [<-|Hne].
  - rewrite lookup_insert_eq in Hj. injection Hj as <-.
    split; [lia|]. split; [by rewrite Hi|]. intros j' Hj'. lia.
  - rewrite lookup_insert_ne in Hj by done.
    destruct (Hinv nick j Hj) as (Hlt & Hb & Hlast).
    split; [lia|]. split; [done|]. intros j' Hj'.
    destruct (decide (j' = i)) as [->|Hji].
    + rewrite Hi. simpl. congruence.
    + apply Hlast. lia.
Qed.

(** On success each chunk has got, as its dependencies, the positions its
    descriptor's dependency nicknames were last bound to. *)
Lemma mapChunks_bound (all : list str) elements : forall env st i l st',
  mapChunks env st i elements = (Ok l, st') ->
  (forall k e, elements !! k = Some e -> all !! (i + k) = Some e) ->
  (forall nick j, env !! nick = Some j -> lastBound all i nick j) ->
  forall k element, elements !! k = Some element ->
    exists idx,
      dependencies <$> st' !! (i + k) = Some (Some (map Some idx)) /\
      Forall2 (lastBound all (S (i + k))) (dependencyNicksOf element) idx.
Proof.
  induction elements as [|element rest IH]; intros env st i l st'; simpl.
  - intros _ _ _ k e Hk. by rewrite lookup_nil in Hk.
  - destruct (mapCallback env st element i) as [[[s env1]|e] st1] eqn:E1;
      [|done].
    destruct (mapChunks env1 st1 (S i) rest) as [[l2|e] st2] eqn:E2; [|done].
    intros [= <- <-] Hall Hinv.
    apply mapCallback_Ok in E1 as (c & Hc & -> & Hst1 & Hm).
    cbv zeta in Hst1, Hm.
    assert (Hi : all !! i = Some element).
    { specialize (Hall 0 element eq_refl). by rewrite Nat.add_0_r in Hall. }
    pose proof (lastBound_insert all env i element Hi Hinv) as Hinv1.
    intros [|k] el Hk.
    + injection Hk as <-. rewrite Nat.add_0_r.
      pose proof (mapChunks_frame _ _ _ _ _ _ E2) as [_ Hf].
      rewrite Hf by lia. rewrite Hst1.
      rewrite list_lookup_insert_eq by (by eapply lookup_lt_Some).
      apply mapM_is_Some_1 in Hm.
      destruct (all_Some_map
        (map (fun nick => <[nicknameOf element := i]> env !! nick)
             (dependencyNicksOf element))) as [idx Hidx].
      { eapply Forall_impl; [exact Hm|]. intros [j|] [x Hx]; [eauto|done]. }
      exists idx. split; [simpl; by rewrite Hidx|].
      clear -Hidx Hinv1. revert idx Hidx.
      induction (dependencyNicksOf element) as [|nick nicks IHn];
        intros [|j idx] Hidx; try done; try (by constructor).
      simpl in Hidx. apply (inj2 cons) in Hidx as [Hj Hidx].
      constructor; [by apply Hinv1 | by apply IHn].
    + replace (i + S k) with (S i + k) by lia.
      apply (IH _ _ _ _ _ E2); [|done..].
      intros k' e' Hk'. replace (S i + k') with (i + S k') by lia.
      by apply Hall.
Qed.

End Bindings.

(** X7: in the options [getChunkOptions] returns, the list of source files
    is the one it was given, and each descriptor comes back in its place
    with the name of its chunk for the nickname, the same number of files,
    and, for each dependency nickname, the name of the chunk of the last
    descriptor up to this one that has this nickname; the positions of
    these chunks are the chunk's [dependencies].  The names are the
    declared ones. *)
Theorem getChunkOptions_renames
    (st : store) (raw : rawOptions) (out : chunkOptions) (st' : store) :
  getChunkOptions st raw = (Ok out, st') ->
  js out = raw_js raw /\
  length (chunk_ out) = length (raw_chunk raw) /\
  map name st' = map name st /\
  forall i element, raw_chunk raw !! i = Some element ->
    exists c idx names,
      st' !! i = Some c /\
      dependencies c = Some (map Some idx) /\
      Forall2 (lastBound (raw_chunk raw) (S i))
              (dependencyNicksOf element) idx /\
      Forall2 (fun j n => name <$> st' !! j = Some n) idx names /\
      chunk_ out !! i = Some (renamedDescriptor c element names).
Proof.
  unfold getChunkOptions.
  destruct (mapChunks ∅ st 0 (raw_chunk raw)) as [[l|e] st1] eqn:E1; [|done].
  destruct (wrapEach (seq 0 (length st1)) st1) as [[u|e] st2] eqn:E2;
    [|done].
  intros [= <- <-]. cbn [js chunk_].
  destruct (mapChunks_strings _ _ _ _ _ _ E1) as [Hlen Hstr].
  pose proof (mapChunks_frame _ _ _ _ _ _ E1) as [Hd1 _].
  pose proof (wrapEach_frame _ _ _ _ E2) as [Hd Hdeps].
  split; [done|]. split; [done|]. split.
  { apply map_declared; [by intros x y [= -> _ _ _ _ _] | congruence]. }
  intros i element Hi.
  destruct (Hstr i element Hi) as (c & ds & names & Hc & Hds & Hn & Hl).
  destruct (mapChunks_bound (raw_chunk raw) _ _ _ _ _ _ E1) with
    (k := i) (element := element) as (idx & Hidx & Hb); [done | | done |].
  { intros nick j Hj. by rewrite lookup_empty in Hj. }
  simpl in Hc, Hidx. rewrite Hc in Hidx. injection Hidx as Hidx.
  assert (ds = map Some idx) as -> by congruence.
  destruct (dependencies_kept _ _ _ _ Hdeps Hc) as (c' & Hc' & Heq).
  exists c', idx, names. split; [done|]. split; [congruence|].
  split; [done|]. split.
  - rewrite <- (names_declared st1 st2 _ Hd) in Hn.
    apply mapM_Some_1 in Hn. by apply Forall2_fmap_l in Hn.
  - pose proof (declared_lookup st1 st2 i Hd) as Hdl.
    rewrite Hc, Hc' in Hdl.
    injection Hdl as Hname _ _ _ _ _.
    rewrite Hl. unfold renamedDescriptor. by rewrite Hname.
Qed.

(** The two descriptors the source quotes: [all] comes back as [blocks],
    and its dependency [requires], bound at position 0, as [blockly]. *)
Lemma getChunkOptions_renames_witness :
  let raw := {| raw_chunk := [lit "requires:258"; lit "all:10:requires"];
                raw_js := [lit "core/blockly.js"] |} in
  exists out st',
    getChunkOptions (take 2 chunks) raw = (Ok out, st') /\
    js out = [lit "core/blockly.js"] /\
    chunk_ out = [lit "blockly:258"; lit "blocks:10:blockly"] /\
    exists c idx names,
      idx = [0] /\ names = [lit "blockly"] /\
      st' !! 1 = Some c /\
      dependencies c = Some (map Some idx) /\
      Forall2 (lastBound (raw_chunk raw) 2) [lit "requires"] idx /\
      Forall2 (fun j n => name <$> st' !! j = Some n) idx names /\
      chunk_ out !! 1
      = Some (renamedDescriptor c (lit "all:10:requires") names).
Proof.
  intros raw.
  destruct (getChunkOptions (take 2 chunks) raw) as [[out|e] st'] eqn:E;
    [|by vm_compute in E].
  exists out, st'. split; [done|].
  destruct (getChunkOptions_renames _ _ _ _ E) as (Hjs & _ & _ & Hall).
  split; [exact Hjs|].
  split; [revert E; vm_compute; by intros [= <- _]|].
  destruct (Hall 1 (lit "all:10:requires") eq_refl)
    as (c & idx & names & Hc & Hdeps & Hb & Hn & Hout).
  assert (H1 : dependencies <$> st' !! 1 = Some (Some [Some 0]))
    by (revert E; vm_compute; by intros [= _ <-]).
  assert (H0 : name <$> st' !! 0 = Some (lit "blockly"))
    by (revert E; vm_compute; by intros [= _ <-]).
  rewrite Hc in H1. cbn [fmap option_fmap option_map] in H1.
  rewrite Hdeps in H1.
  assert (Hidx : idx = [0]).
  { destruct idx as [|j [|j' idx]]; try done.
    by injection H1 as ->. }
  assert (Hnames : names = [lit "blockly"]).
  { rewrite Hidx in Hn.
    apply Forall2_cons_inv_l in Hn as (n & names' & Hn0 & Hnil & ->).
    apply Forall2_nil_inv_l in Hnil as ->.
    rewrite H0 in Hn0. by injection Hn0 as <-. }
  by exists c, idx, names.
Defined.

(** X8: in the options [getChunkOptions] returns there is one wrapper entry
    for each chunk of the array, made of the chunk's name and of the
    wrapper [chunkWrapper] computes for the chunk as the run leaves it; the
    chunk carries the same wrapper. *)
Theorem getChunkOptions_wrappers
    (st : store) (raw : rawOptions) (out : chunkOptions) (st' : store) :
  getChunkOptions st raw = (Ok out, st') ->
  length (chunk_wrapper out) = length st /\
  forall i c, st' !! i = Some c ->
    exists w, chunkWrapper st' c = Ok w /\ wrapper c = Some w /\
              chunk_wrapper out !! i = Some (name c ++ lit ":" ++ w).
Proof.
  intros Hrun. pose proof (getChunkOptions_wrapped _ _ _ _ Hrun) as Hw.
  pose proof (getChunkOptions_keeps_length st raw) as Hlen.
  rewrite Hrun in Hlen. cbn [snd] in Hlen.
  unfold getChunkOptions in Hrun.
  destruct (mapChunks ∅ st 0 (raw_chunk raw)) as [[l|e] st1]; [|done].
  destruct (wrapEach (seq 0 (length st1)) st1) as [[u|e] st2]; [|done].
  injection Hrun as <- <-. cbn [chunk_wrapper].
  split; [by rewrite length_map|].
  intros i c Hc. destruct (Hw i c Hc) as (w & Hcw & Hwr).
  exists w. split; [done|]. split; [done|].
  rewrite map_fmap, list_lookup_fmap, Hc. simpl. by rewrite Hwr.
Qed.

Lemma getChunkOptions_wrappers_witness :
  exists out,
    fst (getChunkOptions (take 2 chunks)
           {| raw_chunk := [lit "requires:258"; lit "all:10:requires"];
              raw_js := [] |}) = Ok out /\
    length (chunk_wrapper out) = 2.
Proof.
  destruct (getChunkOptions (take 2 chunks)
              {| raw_chunk := [lit "requires:258"; lit "all:10:requires"];
                 raw_js := [] |}) as [[out|e] st'] eqn:E;
    [|by vm_compute in E].
  exists out. split; [done|].
  exact (proj1 (getChunkOptions_wrappers _ _ _ _ E)).
Defined.

(** X9: a second run of [getChunkOptions] with the same descriptors, on the
    chunks the first run has left behind, returns the same options and
    leaves the chunks as they are. *)
Theorem getChunkOptions_rerun
    (st : store) (raw : rawOptions) (out : chunkOptions) (st' : store) :
  getChunkOptions st raw = (Ok out, st') ->
  getChunkOptions st' raw = (Ok out, st').
Proof.
  intros Hrun. pose proof (getChunkOptions_wrapped _ _ _ _ Hrun) as Hw.
  unfold getChunkOptions in *.
  destruct (mapChunks ∅ st 0 (raw_chunk raw)) as [[l|e] st1] eqn:E1; [|done].
  destruct (wrapEach (seq 0 (length st1)) st1) as [[u|e] st2] eqn:E2;
    [|done].
  injection Hrun as <- <-.
  pose proof (mapChunks_frame _ _ _ _ _ _ E1) as [Hd1 _].
  pose proof (wrapEach_frame _ _ _ _ E2) as [Hd2 Hdeps].
  rewrite (mapChunks_rerun _ _ _ _ _ _ st2 E1).
  - by rewrite (wrapEach_rerun st2 Hw).
  - congruence.
  - intros j _. rewrite !map_fmap in Hdeps.
    by rewrite <- !list_lookup_fmap, Hdeps.
Qed.

Lemma getChunkOptions_rerun_witness :
  let raw := {| raw_chunk := [lit "requires:258"; lit "all:10:requires"];
                raw_js := [] |} in
  getChunkOptions (snd (getChunkOptions (take 2 chunks) raw)) raw
  = getChunkOptions (take 2 chunks) raw.
Proof.
  intros raw.
  destruct (getChunkOptions (take 2 chunks) raw) as [[out|e] st'] eqn:E;
    [|by vm_compute in E].
  exact (getChunkOptions_rerun _ _ _ _ E).
Defined.

Section Outcome.

Implicit Types (st : store) (env : nicknames) (c : chunk).

(** Whether a nickname is bound by the descriptors up to position [k]. *)
Lemma bound_or_not (elements : list str) (nick : str) (k : nat) :
  (exists j e, j <= k /\ elements !! j = Some e /\ nicknameOf e = nick) \/
  (forall j e, j <= k -> elements !! j = Some e -> nicknameOf e <> nick).
Proof.
  induction k as [|k [(j & e & Hj & He & Hn) | Hnone]].
  - destruct (elements !! 0) as [e|] eqn:He.
    + destruct (decide (nicknameOf e = nick)) as [Hn | Hn].
      * left. exists 0, e. eauto.
      * right. intros j e' Hj He'. assert (j = 0) as -> by lia. congruence.
    + right. intros j e' Hj He'. assert (j = 0) as -> by lia. congruence.
  - left. exists j, e. split; [lia | done].
  - destruct (elements !! S k) as [e|] eqn:He.
    + destruct (decide (nicknameOf e = nick)) as [Hn | Hn].
      * left. exists (S k), e. eauto.
      * right. intros j e' Hj He'.
        destruct (decide (j = S k)) as [-> | Hne]; [congruence|].
        apply (Hnone j e'); [lia | done].
    + right. intros j e' Hj He'.
      destruct (decide (j = S k)) as [-> | Hne]; [congruence|].
      apply (Hnone j e'); [lia | done].
Qed.

Lemma getChunkOptions_succeeds st raw :
  length (raw_chunk raw) = length st ->
  (forall k element nick,
      raw_chunk raw !! k = Some element ->
      nick ∈ dependencyNicksOf element ->
      exists j e, j <= k /\ raw_chunk raw !! j = Some e /\ nicknameOf e = nick) ->
  exists out st', getChunkOptions st raw = (Ok out, st').
Proof.
  intros Hlen Hres. unfold getChunkOptions.
  destruct (mapChunks_succeeds (raw_chunk raw) ∅ st 0)
    as (l & st1 & E1); [lia | by intros nick j; rewrite lookup_empty | |].
  { intros k element nick Hk Hin. right. by apply (Hres k element). }
  rewrite E1.
  pose proof (mapChunks_Ok _ _ _ _ _ _ (fun nick j H => ltac:(by rewrite
    lookup_empty in H)) E1) as Hok.
  pose proof (frame_length _ _ _ _ (mapChunks_frame _ _ _ _ _ _ E1)) as Hl.
  assert (Hres1 : resolved st1).
  { unfold resolved. apply Forall_forall. intros c Hc.
    apply list_elem_of_lookup in Hc as [i Hi].
    pose proof (lookup_lt_Some _ _ _ Hi) as Hlt.
    destruct (lookup_lt_is_Some_2 (raw_chunk raw) i) as [element He];
      [lia|].
    destruct (Hok i element He) as (c' & ds & Hc' & Hds & Hup & _).
    simpl in Hc'. replace c' with c in * by congruence.
    exists ds. split; [done|]. eapply Forall_impl; [exact Hup|].
    intros d (j & -> & Hj). exists j. split; [done | lia]. }
  destruct (wrapEach_succeeds (seq 0 (length st1)) st1 Hres1) as [st2 E2].
  rewrite E2. eauto.
Qed.

Lemma getChunkOptions_mismatch st raw :
  Forall (fun c => dependencies c = None) st ->
  length (raw_chunk raw) <> length st ->
  exists st', getChunkOptions st raw = (Throw TypeError, st').
Proof.
  intros Hfresh Hlen. unfold getChunkOptions.
  destruct (decide (length st < length (raw_chunk raw))) as [Hgt | Hle].
  - destruct (mapChunks_overflow (raw_chunk raw) ∅ st 0) as [st' ->];
      [lia | lia | eauto].
  - destruct (mapChunks ∅ st 0 (raw_chunk raw)) as [[l|[]] st1] eqn:E;
      [|eauto].
    apply mapChunks_frame in E. pose proof (frame_length _ _ _ _ E) as Hl.
    destruct E as [_ Hf].
    destruct (lookup_lt_is_Some_2 st (length (raw_chunk raw))) as [c Hc];
      [lia|].
    destruct (wrapEach_throw (seq 0 (length st1)) st1
                (length (raw_chunk raw)) c) as [st2 ->]; [| | | |eauto].
    + apply elem_of_seq. lia.
    + rewrite Hf by lia. done.
    + rewrite Forall_forall in Hfresh. apply Hfresh.
      by eapply list_elem_of_lookup_2.
    + apply Forall_forall. intros j Hj%elem_of_seq. lia.
Qed.

End Outcome.

(** X10: on chunks that carry no dependencies yet, [getChunkOptions] returns
    its options exactly when there are as many descriptors as chunks and
    every dependency nickname is the nickname of a descriptor at the same
    or an earlier position; in every other case it throws. *)
Theorem getChunkOptions_outcome (st : store) (raw : rawOptions) :
  Forall (fun c => dependencies c = None) st ->
  ((exists out st', getChunkOptions st raw = (Ok out, st')) <->
   (length (raw_chunk raw) = length st /\
    forall k element nick,
      raw_chunk raw !! k = Some element ->
      nick ∈ dependencyNicksOf element ->
      exists j e, j <= k /\ raw_chunk raw !! j = Some e /\
                  nicknameOf e = nick)) /\
  ((exists out st', getChunkOptions st raw = (Ok out, st')) \/
   (exists st', getChunkOptions st raw = (Throw TypeError, st'))).
Proof.
  intros Hfresh. split.
  - split.
    + intros (out & st' & Hrun). split.
      * destruct (decide (length (raw_chunk raw) = length st)) as [|Hne];
          [done|].
        destruct (getChunkOptions_mismatch st raw Hfresh Hne) as [st2 H2].
        congruence.
      * intros k element nick Hk Hin.
        destruct (bound_or_not (raw_chunk raw) nick k) as [Hb | Hnone];
          [done|].
        unfold getChunkOptions in Hrun.
        destruct (mapChunks_unbound (raw_chunk raw) ∅ st 0 k element nick)
          as [st2 H2]; [done | done | by rewrite lookup_empty | done |].
        by rewrite H2 in Hrun.
    + intros [Hlen Hres]. by apply getChunkOptions_succeeds.
  - destruct (getChunkOptions st raw) as [[out|[]] st'] eqn:E; eauto.
Qed.

(** The declared chunks, with the seven descriptors of a build in which
    every chunk depends on the first. *)
Lemma getChunkOptions_outcome_witness :
  exists out st',
    getChunkOptions chunks
      {| raw_chunk := [ lit "requires:258"; lit "all:10:requires";
                        lit "all1:11:requires"; lit "all2:11:requires";
                        lit "all3:11:requires"; lit "all4:11:requires";
                        lit "all5:11:requires" ];
         raw_js := [] |} = (Ok out, st').
Proof.
  apply (proj1 (getChunkOptions_outcome chunks _
           ltac:(repeat constructor))).
  split; [reflexivity|].
  intros k element nick Hk Hin.
  exists 0, (lit "requires:258").
  do 7 (destruct k as [|k];
    [injection Hk as <-; vm_compute in Hin;
     first [ by apply elem_of_nil in Hin
           | apply list_elem_of_singleton in Hin as ->;
             split; [lia | split; by vm_compute] ]|]).
  done.
Defined.

Section Placeholder.

Lemma lacks_app (x : ascii) (s t : str) :
  lacks x (s ++ t) = lacks x s && lacks x t.
Proof. apply forallb_app. Qed.

Lemma lacks_join (x : ascii) (sep : str) (l : list str) :
  lacks x sep = true -> Forall (fun s => lacks x s = true) l ->
  lacks x (join sep l) = true.
Proof.
  intros Hsep Hl. induction Hl as [|s l Hs Hl IH]; [done|].
  destruct l as [|t l]; [done|].
  rewrite join_cons, !lacks_app, Hs, Hsep. exact IH.
Qed.

(** What a declared chunk contributes to the wrapper of a dependent holds
    no percent sign. *)
Lemma declaredChunk_lacks_percent (d : chunk) :
  declaredChunk d ->
  lacks "%" (JSON_stringify (lit "./" ++ name d ++ COMPILED_SUFFIX ++ lit ".js"))
    = true /\
  lacks "%" (lit "root." ++ exports d) = true /\
  lacks "%" (joined (importAs d)) = true.
Proof.
  unfold declaredChunk, declaredFields. cbn [map chunks declare].
  intros H.
  repeat (apply elem_of_cons in H as [H | H];
          [injection H as -> _ -> -> _ _; by vm_compute|]).
  by apply elem_of_nil in H.
Qed.

Lemma header_lacks_percent (deps : list chunk) (c : chunk) :
  Forall declaredChunk deps -> lacks "%" (exports c) = true ->
  lacks "%" (wrapperHeader deps c) = true.
Proof.
  intros Hdeps Hc. unfold wrapperHeader. cbv zeta.
  assert (Hjoin : forall f : chunk -> str,
    (forall d, declaredChunk d -> lacks "%" (f d) = true) ->
    lacks "%" (join (lit ", ") (map f deps)) = true).
  { intros f Hf. apply lacks_join; [done|].
    apply Forall_map. eapply Forall_impl; [exact Hdeps|]. exact Hf. }
  rewrite map_map, !lacks_app, Hc.
  rewrite !Hjoin; [done | intros d Hd..].
  - by apply declaredChunk_lacks_percent.
  - by apply declaredChunk_lacks_percent.
  - rewrite !lacks_app.
    destruct (declaredChunk_lacks_percent d Hd) as (-> & _ & _). done.
  - by apply declaredChunk_lacks_percent.
Qed.

End Placeholder.

(** X11: in the wrapper of a declared chunk, for any dependencies among the
    declared chunks, the placeholder [%output%] occurs once: the text
    before it and the text after it hold no percent sign. *)
Theorem wrapper_one_placeholder (deps : list chunk) (c : chunk) (i : nat) :
  Forall declaredChunk deps ->
  declaredFields <$> chunks !! i = Some (declaredFields c) ->
  exists before after,
    wrapperText deps c = before ++ lit "%output%" ++ after /\
    lacks "%" before = true /\ lacks "%" after = true.
Proof.
  intros Hdeps Hc.
  exists (wrapperHeader deps c ++
          orElse (factoryPreamble c) FACTORY_PREAMBLE ++ [LF]).
  eexists. split; [unfold wrapperText; by rewrite <- !app_assoc|].
  assert (Hx : lacks "%" (exports c) = true).
  { do 7 (destruct i as [|i];
      [injection Hc as _ _ <- _ _ _; by vm_compute|]). done. }
  rewrite !lacks_app, header_lacks_percent, Hx by done.
  do 7 (destruct i as [|i];
    [injection Hc as _ _ _ _ <- <-; by vm_compute|]).
  done.
Qed.

Lemma wrapper_one_placeholder_witness :
  let blockly := set_dependencies (default (declare "" "" "" None None None)
                                     (chunks !! 0)) [] in
  let blocks := set_dependencies (default (declare "" "" "" None None None)
                                    (chunks !! 1)) [Some 0] in
  exists before after,
    wrapperText [blockly] blocks = before ++ lit "%output%" ++ after /\
    lacks "%" before = true /\ lacks "%" after = true.
Proof.
  intros blockly blocks.
  apply (wrapper_one_placeholder [blockly] blocks 1).
  - apply Forall_cons_2; [|apply Forall_nil_2].
    unfold declaredChunk. vm_compute. apply list_elem_of_here.
  - reflexivity.
Defined.

(* ===================================================================== *)
(** * Where the raw options come from *)
(* ===================================================================== *)

Section RawOptions.

(** A greedy repetition that meets a character outside its set after
    characters inside it hands exactly that point to the continuation, if
    the continuation accepts it. *)
Lemma greedy_all (cs : cset) (k : str -> option str) (x : ascii)
    (rest r : str) : forall d,
  Forall (fun c => inSet cs c = true) d ->
  inSet cs x = false -> k (x :: rest) = Some r ->
  greedy cs (d ++ x :: rest) k = Some r.
Proof.
  intros d Hd Hx Hk. induction Hd as [|c d Hc Hd IH]; simpl.
  - by rewrite Hx.
  - by rewrite Hc, IH.
Qed.

Lemma nodeMajorVersion_digits (d rest : str) :
  d <> [] -> Forall (fun c => inSet CDigit c = true) d ->
  nodeMajorVersion (lit "v" ++ d ++ lit "." ++ rest) = Ok d.
Proof.
  intros Hne Hd. unfold nodeMajorVersion.
  assert (Hexec : exec versionRegex (lit "v" ++ d ++ lit "." ++ rest)
                  = Some rest).
  { destruct d as [|c d]; [done|]. apply Forall_cons in Hd as [Hc Hd].
    unfold exec, versionRegex. cbn in Hc |- *. rewrite Hc.
    by apply greedy_all. }
  assert (Hs : search versionRegex (lit "v" ++ d ++ lit "." ++ rest)
               = Some (lit "v" ++ d ++ lit ".", rest)).
  { destruct (lit "v" ++ d ++ lit "." ++ rest) as [|c s] eqn:E; [done|].
    cbn [search]. rewrite Hexec. do 2 f_equal. rewrite <- E.
    replace (lit "v" ++ d ++ lit "." ++ rest)
      with ((lit "v" ++ d ++ lit ".") ++ rest) by (by rewrite <- !app_assoc).
    rewrite length_app, Nat.add_sub. by rewrite take_app_length. }
  rewrite Hs. f_equal. cbn [lit list_ascii_of_string app tail].
  by rewrite removelast_last.
Qed.

Lemma search_without_v (s : str) :
  "v"%char ∉ s -> search versionRegex s = None.
Proof.
  induction s as [|c s IH]; [done|].
  intros [Hc Hs]%not_elem_of_cons.
  assert (Hexec : exec versionRegex (c :: s) = None).
  { unfold exec, versionRegex. cbn [Cat matchRe inSet].
    destruct (Ascii.eqb "v" c) eqn:E; [|done].
    apply Ascii.eqb_eq in E. congruence. }
  cbn [search]. rewrite Hexec. by apply IH.
Qed.

Lemma replaceFirst_head (pat rep rel : str) :
  replaceFirst pat rep (pat ++ rel) = rep ++ rel.
Proof.
  destruct (pat ++ rel) as [|c s] eqn:E; simpl.
  - apply app_eq_nil in E as [-> ->]. done.
  - rewrite <- E, startsWith_app, drop_app_length. done.
Qed.

Lemma replaceFirst_absent (pat rep s : str) :
  includes pat s = false -> replaceFirst pat rep s = s.
Proof.
  induction s as [|c s IH]; simpl.
  - rewrite orb_false_r. by intros ->.
  - intros [-> Hs]%orb_false_iff. by rewrite IH.
Qed.

End RawOptions.

(** X12: for a version of node of the form [v<digits>.<rest>],
    [getChunkOptions] runs closure-calculate-chunks exactly when the number
    the digits denote is at least 14, and reads the cache file otherwise;
    the comparison is by number, not by text.  A version without the
    letter v makes it throw. *)
Theorem node_version_gate (e : environment) :
  (forall d rest,
     version e = lit "v" ++ d ++ lit "." ++ rest ->
     d <> [] -> Forall (fun c => inSet CDigit c = true) d ->
     (14 <= toNumber d ->
      exists raw, readRawOptions e = Ok (raw, Live raw)) /\
     (toNumber d < 14 -> readRawOptions e = Ok (cacheFile e, Cached))) /\
  ("v"%char ∉ version e -> readRawOptions e = Throw TypeError).
Proof.
  split.
  - intros d rest Hv Hne Hd. unfold readRawOptions.
    rewrite Hv, (nodeMajorVersion_digits d rest Hne Hd). split; intros Hn.
    + apply Nat.leb_le in Hn. rewrite Hn. eauto.
    + apply Nat.leb_gt in Hn. by rewrite Hn.
  - intros Hv. unfold readRawOptions, nodeMajorVersion.
    by rewrite search_without_v.
Qed.

(** Node 9 reads the cache, node 100 runs the tool. *)
Lemma node_version_gate_witness :
  let old := {| version := lit "v9.11.2"; cwd := lit "/home/me/blockly";
                toolOutput := {| raw_chunk := []; raw_js := [] |};
                cacheFile := {| raw_chunk := [lit "requires:258"];
                                raw_js := [lit "./core/blockly.js"] |} |} in
  let new := {| version := lit "v100.0.1"; cwd := lit "/home/me/blockly";
                toolOutput := {| raw_chunk := [lit "requires:258"];
                                 raw_js := [lit "/home/me/blockly/core/blockly.js"] |};
                cacheFile := {| raw_chunk := []; raw_js := [] |} |} in
  readRawOptions old = Ok (cacheFile old, Cached) /\
  exists raw, readRawOptions new = Ok (raw, Live raw).
Proof.
  intros old new. split.
  - apply (proj1 (node_version_gate old) (lit "9") (lit "11.2"));
      [reflexivity | done | repeat constructor | vm_compute; lia].
  - apply (proj1 (node_version_gate new) (lit "100") (lit "0.1"));
      [reflexivity | done | repeat constructor | vm_compute; lia].
Defined.

(** X13: in a run of closure-calculate-chunks the chunk descriptors are
    passed on as they are and what is written to the cache file is what the
    run uses; each source path is passed on in its place, with the working
    directory at its head replaced by a dot, and unchanged when the working
    directory does not occur in it. *)
Theorem live_run_relativizes
    (e : environment) (raw written : rawOptions) :
  readRawOptions e = Ok (raw, Live written) ->
  written = raw /\
  raw_chunk raw = raw_chunk (toolOutput e) /\
  length (raw_js raw) = length (raw_js (toolOutput e)) /\
  forall i p, raw_js (toolOutput e) !! i = Some p ->
    exists p', raw_js raw !! i = Some p' /\
      (forall rel, p = cwd e ++ rel -> p' = lit "." ++ rel) /\
      (includes (cwd e) p = false -> p' = p).
Proof.
  unfold readRawOptions.
  destruct (nodeMajorVersion (version e)) as [major|err]; [|done].
  destruct (14 <=? toNumber major)%nat; [|done].
  intros [= <- <-]. cbn [raw_chunk raw_js].
  split; [done|]. split; [done|]. split; [by rewrite length_map|].
  intros i p Hp. exists (replaceFirst (cwd e) (lit ".") p).
  split; [by rewrite map_fmap, list_lookup_fmap, Hp|].
  split.
  - intros rel ->. apply replaceFirst_head.
  - apply replaceFirst_absent.
Qed.

Lemma live_run_relativizes_witness :
  let e := {| version := lit "v16.13.0"; cwd := lit "/home/me/blockly";
              toolOutput :=
                {| raw_chunk := [lit "requires:258"];
                   raw_js := [lit "/home/me/blockly/core/blockly.js"] |};
              cacheFile := {| raw_chunk := []; raw_js := [] |} |} in
  exists raw, readRawOptions e = Ok (raw, Live raw) /\
              raw_js raw = [lit "./core/blockly.js"].
Proof.
  intros e.
  destruct (readRawOptions e) as [[raw [w|]]|err] eqn:E;
    try (by vm_compute in E).
  destruct (live_run_relativizes e raw w E) as (-> & _ & _ & Hjs).
  exists raw. split; [done|].
  by vm_compute in E; injection E as <-.
Defined.

(* ===================================================================== *)
(** * Options for the Closure Compiler *)
(* ===================================================================== *)

Section CompilerOptions.

Lemma strictCheckTypes_not_default : lit "strictCheckTypes" ∉ JSCOMP_ERROR.
Proof.
  unfold JSCOMP_ERROR. intros H.
  repeat (apply elem_of_cons in H as [H|H]; [by vm_compute in H|]).
  by apply elem_of_nil in H.
Qed.

Lemma defaultOptions_jscomp_error (argv : argvFlags) :
  defaultOptions argv !! lit "jscomp_error" =
  if debug argv || strict argv
  then Some (VList (JSCOMP_ERROR ++
                    if strict argv then [lit "strictCheckTypes"] else []))
  else None.
Proof.
  unfold defaultOptions. destruct (debug argv || strict argv).
  - by rewrite lookup_insert_eq.
  - by vm_compute.
Qed.

End CompilerOptions.

(** In the options [compile] passes to the Closure Compiler, an option
    the caller supplies has the caller's value, and every other option has
    its default value. *)
Lemma compile_caller_overrides
    (argv : argvFlags) (options : optionsObject) (key : str) :
  fst (compile argv options) !! key =
  match options !! key with
  | Some v => Some v
  | None => defaultOptions argv !! key
  end.
Proof.
  unfold compile. cbn [fst]. rewrite lookup_union.
  destruct (options !! key) as [v|]; simpl.
  - by destruct (defaultOptions argv !! key).
  - by destruct (defaultOptions argv !! key).
Qed.

(** X14: when the caller supplies no [jscomp_error], the options hold one
    exactly when the flag debug or the flag strict is set; it then lists
    every group of [JSCOMP_ERROR], and the group strictCheckTypes exactly
    when the flag strict is set. *)
Theorem compile_jscomp_error (argv : argvFlags) (options : optionsObject) :
  options !! lit "jscomp_error" = None ->
  (debug argv || strict argv = false ->
   fst (compile argv options) !! lit "jscomp_error" = None) /\
  (debug argv || strict argv = true ->
   exists groups,
     fst (compile argv options) !! lit "jscomp_error" = Some (VList groups) /\
     (forall g, g ∈ JSCOMP_ERROR -> g ∈ groups) /\
     (lit "strictCheckTypes" ∈ groups <-> strict argv = true)).
Proof.
  intros Hnone. unfold compile. cbn [fst].
  rewrite lookup_union, Hnone, defaultOptions_jscomp_error.
  split; intros ->; [done|].
  eexists. split; [done|]. split.
  - intros g Hg. apply elem_of_app. by left.
  - rewrite elem_of_app. destruct (strict argv); split; try done.
    + intros _. right. apply list_elem_of_here.
    + intros [H | H%elem_of_nil]; [|done].
      by apply strictCheckTypes_not_default in H.
Qed.

(** The options of [buildAdvancedCompilationTest], with the flag strict. *)
Lemma compile_jscomp_error_witness :
  exists groups,
    fst (compile {| verbose := false; debug := false; strict := true |}
           advancedCompilationOptions) !! lit "jscomp_error"
      = Some (VList groups) /\
    lit "strictCheckTypes" ∈ groups.
Proof.
  destruct (proj2 (compile_jscomp_error
    {| verbose := false; debug := false; strict := true |}
    advancedCompilationOptions ltac:(by vm_compute)) eq_refl)
    as (groups & Hg & _ & Hs).
  exists groups. split; [done|]. by apply Hs.
Defined.

(** X15: [buildCompiled] replaces the default definition COMPILED=true by
    its own definition of the version and keeps the default level of
    compilation; [buildAdvancedCompilationTest] keeps the default
    definition and replaces the level of compilation. *)
Theorem compile_defines
    (argv : argvFlags) (packageVersion : str) (chunkOptions : chunkOptions) :
  let compiled :=
    fst (compile argv (buildCompiledOptions packageVersion chunkOptions)) in
  let advanced := fst (compile argv advancedCompilationOptions) in
  compiled !! lit "define"
    = Some (VString (lit "Blockly.VERSION=" ++ [DQUOTE] ++ packageVersion ++
                     [DQUOTE])) /\
  compiled !! lit "compilation_level"
    = Some (VString (lit "SIMPLE_OPTIMIZATIONS")) /\
  compiled !! lit "chunk" = Some (VList (chunk_ chunkOptions)) /\
  compiled !! lit "chunk_wrapper" = Some (VList (chunk_wrapper chunkOptions)) /\
  advanced !! lit "define" = Some (VList [lit "COMPILED=true"]) /\
  advanced !! lit "compilation_level"
    = Some (VString (lit "ADVANCED_OPTIMIZATIONS")).
Proof.
  intros compiled advanced. unfold compiled, advanced, compile. cbn [fst].
  assert (Hd : forall key v,
    key <> lit "jscomp_error" ->
    list_to_map (M := optionsObject)
      [ (lit "compilation_level", VString (lit "SIMPLE_OPTIMIZATIONS"));
        (lit "warning_level",
         VString (if verbose argv then lit "VERBOSE" else lit "DEFAULT"));
        (lit "language_in", VString (lit "ECMASCRIPT_2020"));
        (lit "language_out", VString (lit "ECMASCRIPT5_STRICT"));
        (lit "rewrite_polyfills", VBool true);
        (lit "hide_warnings_for", VString (lit "node_modules"));
        (lit "define", VList [lit "COMPILED=true"]);
        (lit "externs", VList [lit "./externs/svg-externs.js"]) ] !! key
      = v -> defaultOptions argv !! key = v).
  { intros key v Hkey <-. unfold defaultOptions.
    destruct (debug argv || strict argv); [|done].
    by rewrite lookup_insert_ne. }
  rewrite !lookup_union.
  rewrite (Hd (lit "define") (Some (VList [lit "COMPILED=true"])));
    [|done|by destruct (verbose argv); vm_compute].
  rewrite (Hd (lit "compilation_level")
             (Some (VString (lit "SIMPLE_OPTIMIZATIONS"))));
    [|done|by destruct (verbose argv); vm_compute].
  rewrite (Hd (lit "chunk") None);
    [|done|by destruct (verbose argv); vm_compute].
  rewrite (Hd (lit "chunk_wrapper") None);
    [|done|by destruct (verbose argv); vm_compute].
  unfold buildCompiledOptions, advancedCompilationOptions.
  cbn [list_to_map foldr uncurry].
  repeat split; by simplify_map_eq.
Qed.

(* ===================================================================== *)
(** * The choice of the message files *)
(* ===================================================================== *)

Section LanguageFiles.

Lemma endsWith_spec (p s : str) :
  endsWith p s = true <-> exists pre, s = pre ++ p.
Proof.
  unfold endsWith. rewrite startsWith_spec. split.
  - intros [r Hr]. exists (rev r).
    apply (f_equal (@rev ascii)) in Hr.
    by rewrite rev_involutive, rev_app_distr, rev_involutive in Hr.
  - intros [pre ->]. exists (rev pre). by rewrite rev_app_distr.
Qed.

Lemma testToEnd_app (r : regex) (pre t : str) :
  testToEnd r t = true -> testToEnd r (pre ++ t) = true.
Proof.
  intros Ht. induction pre as [|c pre IH]; [done|].
  cbn [app testToEnd]. by destruct (matchRe r _ _).
Qed.

(** The anchored test succeeds exactly on the texts that end with a text of
    the language. *)
Lemma testToEnd_sound (r : regex) (s : str) :
  testToEnd r s = true -> exists pre m, s = pre ++ m /\ lang r m.
Proof.
  induction s as [|c s IH]; cbn [testToEnd].
  - destruct (matchRe r [] _) as [x|] eqn:E; [|done]. intros _.
    apply matchRe_sound in E as (m & s' & Hs & Hm & Hk).
    destruct s'; [|done]. exists [], m. by rewrite app_nil_r in Hs.
  - destruct (matchRe r (c :: s) _) as [x|] eqn:E.
    + intros _. apply matchRe_sound in E as (m & s' & Hs & Hm & Hk).
      destruct s'; [|done]. exists [], m. by rewrite app_nil_r in Hs.
    + intros (pre & m & -> & Hm)%IH. by exists (c :: pre), m.
Qed.

Lemma notLanguage_lang (m : str) :
  lang notLanguageRegex m ->
  m = lit "keys.json" \/ m = lit "synonyms.json" \/
  m = lit "qqq.json" \/ m = lit "constants.json".
Proof.
  unfold notLanguageRegex, Text. cbn [lang].
  intros (m1 & m2 & -> & H1 & ->%lang_Lit).
  destruct H1 as [->%lang_Lit | [->%lang_Lit | [->%lang_Lit | ->%lang_Lit]]];
    auto.
Qed.

Lemma notLanguage_test (file : str) :
  testToEnd notLanguageRegex file =
  endsWith (lit "keys.json") file || endsWith (lit "synonyms.json") file ||
  endsWith (lit "qqq.json") file || endsWith (lit "constants.json") file.
Proof.
  apply eq_true_iff_eq. rewrite !orb_true_iff, !endsWith_spec. split.
  - intros (pre & m & -> & Hm)%testToEnd_sound.
    destruct (notLanguage_lang m Hm) as [-> | [-> | [-> | ->]]]; eauto 10.
  - intros [[[[pre ->] | [pre ->]] | [pre ->]] | [pre ->]];
      by apply testToEnd_app.
Qed.

End LanguageFiles.

(** X16: a path is in the array [json_files], as [buildLangfiles] has it
    after the [filter] and the [map], exactly when it is the path below
    msg/json of a name of the listing that ends with json and does not end
    with keys.json, synonyms.json, qqq.json or constants.json. *)
Theorem languageFiles_spec (pf : platform) (listing : list str) (p : str) :
  p ∈ languageFiles pf listing <->
  exists file,
    file ∈ listing /\
    p = lit "msg" ++ [path_sep pf] ++ lit "json" ++ [path_sep pf] ++ file /\
    endsWith (lit "json") file = true /\
    endsWith (lit "keys.json") file = false /\
    endsWith (lit "synonyms.json") file = false /\
    endsWith (lit "qqq.json") file = false /\
    endsWith (lit "constants.json") file = false.
Proof.
  unfold languageFiles. rewrite map_fmap, list_elem_of_fmap.
  split.
  - intros (file & -> & Hin). exists file.
    apply list_elem_of_In, filter_In in Hin as [Hin Hkeep].
    apply list_elem_of_In in Hin.
    unfold isLanguageFile in Hkeep. rewrite notLanguage_test in Hkeep.
    apply andb_true_iff in Hkeep as [Hjson Hnot].
    apply negb_true_iff in Hnot.
    apply orb_false_iff in Hnot as [Hnot Hc].
    apply orb_false_iff in Hnot as [Hnot Hq].
    apply orb_false_iff in Hnot as [Hk Hs]. done.
  - intros (file & Hin & -> & Hjson & Hk & Hs & Hq & Hc).
    exists file. split; [done|].
    apply list_elem_of_In, filter_In. split; [by apply list_elem_of_In|].
    unfold isLanguageFile. by rewrite notLanguage_test, Hjson, Hk, Hs, Hq, Hc.
Qed.

(** Names that merely end with an excluded name are dropped as well. *)
Example languageFiles_example :
  languageFiles posix
    [ lit "en.json"; lit "qqq.json"; lit "README.md"; lit "monkeys.json";
      lit "de.json"; lit "constants.json" ]
  = [ lit "msg/json/en.json"; lit "msg/json/de.json" ].
Proof. by vm_compute. Qed.

(* ===================================================================== *)
(** * The reach of a wrapper *)
(* ===================================================================== *)

(** X17: the wrapper [chunkWrapper] gives for a chunk is decided by the
    declared fields of the chunks and by the chunk's own dependencies: the
    wrappers and dependencies already written onto other chunks have no
    part in it, so that the order in which wrappers are generated does not
    matter. *)
Theorem chunkWrapper_reads_declared_fields
    (st st' : store) (c c' : chunk) :
  map declaredFields st' = map declaredFields st ->
  declaredFields c' = declaredFields c ->
  dependencies c' = dependencies c ->
  chunkWrapper st' c' = chunkWrapper st c.
Proof. apply chunkWrapper_declared. Qed.

(** The wrapper of [blocks] before and after [blockly] has got its
    wrapper. *)
Lemma chunkWrapper_reads_declared_fields_witness :
  let blockly := set_dependencies (default (declare "" "" "" None None None)
                                     (chunks !! 0)) [] in
  let blocks := set_dependencies (default (declare "" "" "" None None None)
                                    (chunks !! 1)) [Some 0] in
  chunkWrapper [set_wrapper blockly (wrapperText [] blockly); blocks] blocks
  = chunkWrapper [blockly; blocks] blocks.
Proof.
  intros blockly blocks.
  apply chunkWrapper_reads_declared_fields; reflexivity.
Defined.

(* ===================================================================== *)
(** * Stripping twice *)
(* ===================================================================== *)

Section StripTwice.

Lemma greedy_complete (cs : cset) (k : str -> option str) (rest : str) :
  forall m, Forall (fun c => inSet cs c = true) m ->
  is_Some (k rest) -> is_Some (greedy cs (m ++ rest) k).
Proof.
  intros m Hm Hk. induction Hm as [|c m Hc Hm IH]; simpl.
  - destruct rest as [|c rest]; [done|]. simpl.
    destruct (inSet cs c); [|done]. by destruct (greedy cs rest k).
  - rewrite Hc. destruct IH as [x ->]. eauto.
Qed.

(** The matcher finds a match wherever the text starts with a text of the
    language that the continuation accepts. *)
Lemma matchRe_complete (r : regex) :
  forall m rest k, lang r m -> is_Some (k rest) ->
  is_Some (matchRe r (m ++ rest) k).
Proof.
  induction r as [|cs|r1 IH1 r2 IH2|r1 IH1 r2 IH2|r1 IH1|cs];
    intros m rest k; simpl.
  - by intros ->.
  - intros (c & -> & Hc) Hk. simpl. by rewrite Hc.
  - intros (m1 & m2 & -> & H1 & H2) Hk. rewrite <- app_assoc.
    apply IH1; [done|]. by apply IH2.
  - intros [H1 | H2] Hk.
    + destruct (IH1 m rest k H1 Hk) as [x ->]. eauto.
    + destruct (matchRe r1 (m ++ rest) k); [eauto|]. by apply IH2.
  - intros [-> | H1] Hk.
    + simpl. by destruct (matchRe r1 rest k).
    + destruct (IH1 m rest k H1 Hk) as [x ->]. eauto.
  - intros [Hne Hm] Hk. destruct m as [|c m]; [done|].
    apply Forall_cons in Hm as [Hc Hm]. simpl. rewrite Hc.
    by apply greedy_complete.
Qed.

Lemma follows_weaken (a b : ascii) (s : str) :
  is_Some (follows a b true s) -> is_Some (follows a b false s).
Proof.
  destruct s as [|c s]; simpl; [eauto|]. by destruct (Ascii.eqb c b).
Qed.

Lemma follows_noLF (s : str) :
  Forall (fun c => Ascii.eqb c LF = false) s ->
  follows LF LF false s = Some false.
Proof.
  induction 1 as [|c s Hc _ IH]; [done|]. simpl. by rewrite Hc.
Qed.

Lemma digit_noLF (c : ascii) : inSet CDigit c = true -> Ascii.eqb c LF = false.
Proof.
  intros Hc. destruct (Ascii.eqb c LF) eqn:E; [|done].
  apply Ascii.eqb_eq in E as ->. by vm_compute in Hc.
Qed.

Lemma dot_noLF (c : ascii) : inSet CDot c = true -> Ascii.eqb c LF = false.
Proof. simpl. by intros [H _]%negb_true_iff%orb_false_iff. Qed.

Lemma last_app_nonempty (x y : str) : y <> [] -> last (x ++ y) = last y.
Proof.
  intros Hy. destruct y as [|c y _] using rev_ind; [done|].
  by rewrite app_assoc, !last_snoc.
Qed.

(** A header the pattern matches holds no two line feeds in a row and does
    not end with one. *)
Lemma license_shape (m : str) :
  lang licenseRegex m ->
  is_Some (follows LF LF false m) /\ last m <> Some LF.
Proof.
  unfold licenseRegex, NL, Text. cbn [Cat lang].
  intros (m1 & ? & -> & ->%lang_Lit & c1 & ? & -> & (? & -> & Hc1) &
          m2 & ? & -> & ->%lang_Lit & c2 & ? & -> & (? & -> & Hc2) &
          m3 & ? & -> & ->%lang_Lit &
          holder & ? & -> &
            (m4 & ? & -> & ->%lang_Lit & d & ? & -> & [_ Hd] &
             m5 & ? & -> & ->%lang_Lit & h & ? & -> & Hh & ->) &
          c3 & ? & -> & (? & -> & Hc3) &
          opt & ? & -> & Hopt &
          m6 & ? & -> & ->%lang_Lit & c4 & ? & -> & (x4 & -> & Hc4) &
          m7 & ? & -> & ->%lang_Lit & c5 & ? & -> & (? & -> & Hc5) &
          m8 & ? & -> & ->%lang_Lit & ->).
  apply Ascii.eqb_eq in Hc1 as <-, Hc2 as <-, Hc3 as <-, Hc5 as <-.
  assert (Hd' : follows LF LF false d = Some false).
  { apply follows_noLF. eapply Forall_impl; [exact Hd|]. apply digit_noLF. }
  assert (Hc4' : follows LF LF false [x4] = Some false).
  { apply follows_noLF. repeat constructor. by apply dot_noLF. }
  assert (Hh' : follows LF LF false h = Some false).
  { destruct Hh as [->%lang_Lit | ->%lang_Lit]; by vm_compute. }
  split.
  - rewrite <- !app_assoc, !app_nil_r.
    destruct Hopt as [-> | (o1 & ? & -> & ->%lang_Lit & o2 & ? & -> &
                            (y2 & -> & Ho2) & o3 & ? & -> & (? & -> & Ho3) & ->)].
    + eexists.
      repeat (eapply follows_app_Some;
        [ first [ exact Hd' | exact Hc4' | exact Hh'
                | vm_compute; reflexivity ] | ]).
      vm_compute; reflexivity.
    + apply Ascii.eqb_eq in Ho3 as <-.
      assert (Ho2' : follows LF LF false [y2] = Some false).
      { apply follows_noLF. repeat constructor. by apply dot_noLF. }
      rewrite <- ?app_assoc, ?app_nil_r. eexists.
      repeat (eapply follows_app_Some;
        [ first [ exact Hd' | exact Hc4' | exact Hh' | exact Ho2'
                | vm_compute; reflexivity ] | ]).
      vm_compute; reflexivity.
  - rewrite !app_nil_r, !app_assoc, last_app_nonempty by done. done.
Qed.

(** A text of that shape at the head of the stripped text was at the head
    of the text itself. *)
Lemma strip_keeps_head (s : str) : forall x r,
  stripApacheLicense s = x ++ r ->
  is_Some (follows LF LF false x) -> last x <> Some LF ->
  exists r', s = x ++ r'.
Proof.
  unfold stripApacheLicense.
  induction s as [|c s IH]; intros x r Hx Hf Hl.
  - destruct x; [by exists [] | done].
  - destruct x as [|a x]; [by exists (c :: s)|].
    rewrite replaceAll_cons in Hx by apply license_not_empty.
    destruct (exec licenseRegex (c :: s)) as [rest|] eqn:E.
    + exfalso. apply exec_sound in E as (m & Hm & Hspan%license_span).
      destruct m as [|c' m]; [by destruct Hspan as [? | [? _]]|].
      replace (length (c :: s) - length rest) with (S (length m)) in Hx
        by (rewrite Hm, !length_app; cbn [length]; lia).
      injection Hx as <- Hx.
      destruct x as [|a' x]; [done|]. injection Hx as <- _.
      by destruct Hf as [q Hf].
    + injection Hx as <- Hx.
      destruct (IH x r Hx) as [r' ->].
      * simpl in Hf. destruct (Ascii.eqb c LF); [by apply follows_weaken | done].
      * destruct x; [done | exact Hl].
      * by exists r'.
Qed.

(** Where the pattern does not match at the head of a text, it does not
    match at the head of the stripped text. *)
Lemma exec_strip_none (text : str) :
  exec licenseRegex text = None ->
  exec licenseRegex (stripApacheLicense text) = None.
Proof.
  intros Hnone.
  destruct (exec licenseRegex (stripApacheLicense text)) as [r|] eqn:E;
    [|done].
  exfalso. apply exec_sound in E as (m & Hm & Hlang).
  destruct (license_shape m Hlang) as [Hf Hl].
  destruct (strip_keeps_head text m r Hm Hf Hl) as [r' ->].
  destruct (matchRe_complete licenseRegex m r' Some Hlang) as [x Hx];
    [done|].
  unfold exec in Hnone. congruence.
Qed.

Lemma exec_line_feed (s : str) : exec licenseRegex (LF :: s) = None.
Proof. done. Qed.

(** The pattern matches nowhere in a stripped text. *)
Lemma strip_leaves_no_match (n : nat) : forall text,
  length text <= n ->
  forall pre u, stripApacheLicense text = pre ++ u ->
  exec licenseRegex u = None.
Proof.
  induction n as [|n IH]; intros [|c s] Hlen pre u Hu; simpl in Hlen;
    try lia.
  - destruct pre; [|done]. by destruct u.
  - destruct pre; [|done]. by destruct u.
  - pose proof (exec_strip_none (c :: s)) as Hhead.
    unfold stripApacheLicense in *.
    rewrite replaceAll_cons in Hu, Hhead by apply license_not_empty.
    destruct (exec licenseRegex (c :: s)) as [rest|] eqn:E.
    + apply exec_sound in E as (m & Hm & Hspan%license_span).
      destruct m as [|c' m]; [by destruct Hspan as [? | [? _]]|].
      replace (length (c :: s) - length rest) with (S (length m)) in Hu
        by (rewrite Hm, !length_app; cbn [length]; lia).
      injection Hm as <- ->. rewrite drop_app_length in Hu.
      assert (Hrest : length rest <= n) by (rewrite length_app in Hlen; lia).
      do 4 (destruct pre as [|? pre];
        [simpl in Hu; subst u; apply exec_line_feed|
         injection Hu as <- Hu]).
      by apply (IH rest Hrest pre u).
    + destruct pre as [|a pre].
      * simpl in Hu. subst u. by apply Hhead.
      * injection Hu as <- Hu. apply (IH s ltac:(lia) pre u Hu).
Qed.

(** A text in which the pattern matches nowhere is returned as it is. *)
Lemma strip_nothing (text : str) :
  (forall pre u, text = pre ++ u -> exec licenseRegex u = None) ->
  stripApacheLicense text = text.
Proof.
  unfold stripApacheLicense.
  induction text as [|c s IH]; intros Hfree; [done|].
  rewrite replaceAll_cons by apply license_not_empty.
  rewrite (Hfree [] (c :: s) eq_refl). f_equal. apply IH.
  intros pre u ->. by apply (Hfree (c :: pre) u).
Qed.

End StripTwice.

(** X18: stripping the licence headers a second time changes nothing: the
    pattern matches nowhere in a stripped text. *)
Theorem strip_idempotent (text : str) :
  stripApacheLicense (stripApacheLicense text) = stripApacheLicense text.
Proof.
  apply strip_nothing. intros pre u Hu.
  by apply (strip_leaves_no_match (length text) text (le_n _) pre u).
Qed.
